(** * pyutilib.misc.timing: the hierarchical timer

    A shallow embedding of [_HierarchicalHelper], [HierarchicalTimer]
    and [TicTocTimer] from [pyutilib/misc/timing.py], and the properties
    of the timers that the specification states or the code shows.

    Modelling decisions.
    - Clock readings and accumulated times are Python floats; they are
      modelled as exact rationals [Q], so the rounding of float
      arithmetic is left out.  [total_time] starts as the int [0], which
      Python divides and formats as it does [0.0].  [time.time()] is an
      input: every operation that may read the clock receives the
      reading [now].
    - [n_calls] is a Python int, modelled as [Z].
    - A Python [dict] keeps insertion order and that order is visible in
      the report, so [timers] is an association list with unique keys;
      assigning to a missing key appends.
    - A Python exception is a value of [exn]; a method that may raise
      returns [result A].  Methods of [HierarchicalTimer] mutate [self]
      before they raise, so they return the state they leave behind
      together with the outcome.  [assert] is the statement the
      interpreter runs by default (it is not compiled away).
    - [_get_timer] returns a reference to a node of the tree.  The tree is
      owned by the timer (nothing else holds a node), so the reference is
      modelled by the path of keys from the root to the node, and a
      method called through it by the change of the tree at that path.
    - The format specifications of the report are modelled on rationals:
      [format_e] and [format_f] round the exact value, ties to even.
    - The methods of [TicTocTimer] read the clock more than once and
      write to streams and loggers; they run in a [world] that holds the
      readings of the clock, one after the other, and all that has been
      written.  A message is a string or [None]. *)

From Stdlib Require Import List String Ascii ZArith QArith Qround Qabs.
From Stdlib Require Import Bool Lia Lqa DecimalString.
Import ListNotations.

Local Open Scope string_scope.
Local Open Scope Z_scope.
Local Open Scope Q_scope.

(** ** Exceptions and results *)

Inductive exn : Type :=
| IndexError          (* pop from empty list *)
| AssertionError      (* a failed [assert] *)
| KeyError            (* [d[k]] on a missing key *)
| RuntimeError        (* raised by [_get_timer] *)
| TypeError           (* arithmetic on [None] *)
| ZeroDivisionError.  (* [x / 0] *)

Definition result (A : Type) : Type := (A + exn)%type.

Definition ok {A : Type} (a : A) : result A := inl a.
Definition raise {A : Type} (e : exn) : result A := inr e.

Definition bind {A B : Type} (r : result A) (k : A -> result B) : result B :=
  match r with
  | inl a => k a
  | inr e => inr e
  end.

Declare Scope result_scope.
Delimit Scope result_scope with result.
Notation "'do' x <- r ; k" := (bind r (fun x => k))
  (at level 10, x pattern, r at level 100, k at level 200) : result_scope.
Local Open Scope result_scope.

(** ** Python containers *)

(** A [dict] with string keys, in insertion order. *)
Definition dict (V : Type) : Type := list (string * V).

Section Dict.
Context {V : Type}.

(** [d.get(k)]: the value stored under [k], if any. *)
Fixpoint dict_get (k : string) (d : dict V) : option V :=
  match d with
  | [] => None
  | (k', v) :: d' => if String.eqb k k' then Some v else dict_get k d'
  end.

(** [k in d] *)
Definition dict_mem (k : string) (d : dict V) : bool :=
  match dict_get k d with
  | Some _ => true
  | None => false
  end.

(** [d[k]]: raises [KeyError] on a missing key. *)
Definition dict_item (k : string) (d : dict V) : result V :=
  match dict_get k d with
  | Some v => ok v
  | None => raise KeyError
  end.

(** [d[k] = v]: replaces the value in place, or appends a new entry. *)
Fixpoint dict_set (k : string) (v : V) (d : dict V) : dict V :=
  match d with
  | [] => [(k, v)]
  | (k', v') :: d' =>
      if String.eqb k k' then (k', v) :: d' else (k', v') :: dict_set k v d'
  end.
End Dict.

(** [l.pop()]: the list without its last element, and that element;
    [None] stands for the [IndexError] of an empty list. *)
Fixpoint list_pop {A : Type} (l : list A) : option (list A * A) :=
  match l with
  | [] => None
  | x :: l' =>
      match list_pop l' with
      | None => Some ([], x)
      | Some (r, y) => Some (x :: r, y)
      end
  end.

(** Python's true division: [x / y] raises when [y] is zero. *)
Definition truediv (x y : Q) : result Q :=
  if Qeq_bool y 0 then raise ZeroDivisionError else ok (x / y).

(** ** Python's format mini-language, as far as the report uses it *)

Fixpoint spaces (n : nat) : string :=
  match n with
  | O => ""
  | S n' => String " " (spaces n')
  end.

Fixpoint zeros (n : nat) : string :=
  match n with
  | O => ""
  | S n' => String "0" (zeros n')
  end.

(** ['{0:<w}'.format(s)]: left-aligned in a field of at least [w]. *)
Definition ljust (w : nat) (s : string) : string :=
  s ++ spaces (w - String.length s).

(** ['{0:>w}'.format(s)]: right-aligned in a field of at least [w]. *)
Definition rjust (w : nat) (s : string) : string :=
  spaces (w - String.length s) ++ s.

(** Decimal digits of a natural number, zero-filled to [w] digits. *)
Definition digits (w : nat) (n : Z) : string :=
  let s := DecimalString.NilZero.string_of_uint (N.to_uint (Z.to_N n)) in
  zeros (w - String.length s) ++ s.

(** ['d'] presentation of an int. *)
Definition format_d (n : Z) : string :=
  (if (n <? 0)%Z then "-" else "") ++ digits 1 (Z.abs n).

(** Round a non-negative rational to the nearest integer, ties to even. *)
Definition round_half_even (a : Q) : Z :=
  let f := Qfloor a in
  match Qcompare (a - inject_Z f)%Q (1 # 2)%Q with
  | Lt => f
  | Gt => (f + 1)%Z
  | Eq => if Z.even f then f else (f + 1)%Z
  end.

Definition pow10 (e : Z) : Q :=
  if (0 <=? e)%Z then inject_Z (10 ^ e) else 1 # Z.to_pos (10 ^ (- e)).

(** The decimal exponent of a positive rational [a]: the [e] with
    [10^e <= a < 10^(e+1)]. *)
Definition exponent10 (a : Q) : Z :=
  let k := (Z.of_nat (Decimal.nb_digits (N.to_uint (Z.to_N (Qnum a))))
            - Z.of_nat (Decimal.nb_digits (Pos.to_uint (Qden a))))%Z in
  if Qle_bool (pow10 k) a then k else (k - 1)%Z.

Definition sign_of (x : Q) : string :=
  if Qle_bool 0 x then "" else "-".

(** ['.pf'] presentation: fixed point with [p] digits after the point. *)
Definition format_f (p : nat) (x : Q) : string :=
  let m := round_half_even (Qabs x * pow10 (Z.of_nat p)) in
  let unit := (10 ^ Z.of_nat p)%Z in
  sign_of x ++ digits 1 (m / unit) ++ "." ++ digits p (m mod unit).

(** ['.pe'] presentation: scientific notation with [p] digits after the
    point and an exponent of at least two digits. *)
Definition format_e (p : nat) (x : Q) : string :=
  let a := Qabs x in
  let unit := (10 ^ Z.of_nat p)%Z in
  let '(m, e) :=
    if Qeq_bool a 0 then (0%Z, 0%Z)
    else
      let e := exponent10 a in
      let m := round_half_even (a * pow10 (Z.of_nat p - e)) in
      if (m =? 10 * unit)%Z then (unit, (e + 1)%Z) else (m, e) in
  sign_of x ++ digits 1 (m / unit) ++ "." ++ digits p (m mod unit)
    ++ "e" ++ (if (e <? 0)%Z then "-" else "+") ++ digits 2 (Z.abs e).

(** The newline character. *)
Definition nl : string := String "010"%char EmptyString.

(** [c in s] *)
Fixpoint has_char (c : ascii) (s : string) : bool :=
  match s with
  | EmptyString => false
  | String x s' => Ascii.eqb c x || has_char c s'
  end.

(** ** [class _HierarchicalHelper] *)

Module _HierarchicalHelper.

#[local] Unset Elimination Schemes.
Inductive t : Type :=
  Build {
    total_time : Q;
    t0 : option Q;
    n_calls : Z;
    timers : dict t
  }.
#[local] Set Elimination Schemes.

Definition __init__ : t :=
  {| total_time := 0; t0 := None; n_calls := 0; timers := [] |}.

(** [self.t0 = time.time()] *)
Definition start_increment (now : Q) (self : t) : t :=
  {| total_time := total_time self;
     t0 := Some now;
     n_calls := n_calls self;
     timers := timers self |}.

(** [self.total_time += time.time() - self.t0; self.n_calls += 1].
    Subtracting [None] from a float raises [TypeError] before anything
    is assigned. *)
Definition stop_increment (now : Q) (self : t) : result t :=
  match t0 self with
  | None => raise TypeError
  | Some start =>
      ok {| total_time := total_time self + (now - start);
            t0 := t0 self;
            n_calls := n_calls self + 1;
            timers := timers self |}
  end.

(** [print(self, indent)].  The inner [loop] is the [for] statement; it
    carries the two variables the loop body assigns, [s] and
    [other_time]. *)
Fixpoint print (self : t) (indent : string) {struct self} : result string :=
  let s := "" in
  match timers self with
  | [] => ok s
  | _ :: _ =>
      let other_time := total_time self in
      do (s, other_time) <-
        (fix loop (items : dict t) (s : string) (other_time : Q)
             {struct items} : result (string * Q) :=
           match items with
           | [] => ok (s, other_time)
           | (name, timer) :: items' =>
               let s := s ++ indent in
               let s := s ++ ljust 30 name in
               let s := s ++ rjust 15 (format_e 2 (total_time timer)) in
               let s := s ++ rjust 15 (format_d (n_calls timer)) in
               do avg <- truediv (total_time timer)
                                 (inject_Z (n_calls timer));
               let s := s ++ rjust 15 (format_e 2 avg) in
               do frac <- truediv (total_time timer) (total_time self);
               let s := s ++ rjust 15 (format_f 1 (frac * 100)) ++ "%" ++ nl in
               do sub <- print timer (indent ++ "    ");
               let s := s ++ sub in
               let other_time := other_time - total_time timer in
               loop items' s other_time
           end) (timers self) s other_time;
      let s := s ++ indent in
      let s := s ++ ljust 30 "other" in
      let s := s ++ rjust 15 (format_e 2 other_time) in
      let s := s ++ rjust 15 "N/A" in
      let s := s ++ rjust 15 "N/A" in
      do frac <- truediv other_time (total_time self);
      let s := s ++ rjust 15 (format_f 1 (frac * 100)) ++ "%" ++ nl in
      ok s
  end.

End _HierarchicalHelper.

(** ** The tree of accumulators *)

Module H := _HierarchicalHelper.

(** [tmp = tmp.timers[i]] for every [i] of [path], starting from a
    [timers] dict: the dict [tmp.timers] the walk ends at. *)
Fixpoint descend (path : list string) (d : dict H.t) : result (dict H.t) :=
  match path with
  | [] => ok d
  | i :: path' => do tmp <- dict_item i d; descend path' (H.timers tmp)
  end.

(** The effect on the whole tree of replacing, by [f], the dict that
    [descend path] reaches.  This is how an assignment through the
    reference [tmp] shows in the tree that owns [tmp]. *)
Fixpoint modify_at (path : list string) (f : dict H.t -> result (dict H.t))
    (d : dict H.t) : result (dict H.t) :=
  match path with
  | [] => f d
  | i :: path' =>
      do tmp <- dict_item i d;
      do sub <- modify_at path' f (H.timers tmp);
      ok (dict_set i
            {| H.total_time := H.total_time tmp;
               H.t0 := H.t0 tmp;
               H.n_calls := H.n_calls tmp;
               H.timers := sub |} d)
  end.

(** The accumulator at a path of region names, if the tree has one. *)
Fixpoint node_at (path : list string) (d : dict H.t) : option H.t :=
  match path with
  | [] => None
  | i :: path' =>
      match dict_get i d with
      | None => None
      | Some tmp =>
          match path' with
          | [] => Some tmp
          | _ :: _ => node_at path' (H.timers tmp)
          end
      end
  end.

(** ** [class HierarchicalTimer] *)

Module HierarchicalTimer.

Record t : Type :=
  Build {
    stack : list string;
    timers : dict H.t
  }.

Definition __init__ : t := {| stack := []; timers := [] |}.

(** A method runs on [self], may assign to its fields, and returns or
    raises; what it has assigned stays assigned when it raises. *)
Definition method (A : Type) : Type := t -> t * result A.

Definition ret {A : Type} (a : A) : method A := fun self => (self, ok a).

Definition throw {A : Type} (e : exn) : method A :=
  fun self => (self, raise e).

Definition seq {A B : Type} (m : method A) (k : A -> method B) : method B :=
  fun self =>
    match m self with
    | (self', inl a) => k a self'
    | (self', inr e) => (self', inr e)
    end.

Declare Scope method_scope.
Delimit Scope method_scope with method.
Notation "x <- m ;; k" := (seq m (fun x => k))
  (at level 100, m at next level, right associativity) : method_scope.
Local Open Scope method_scope.

(** A reference to the accumulator [tmp.timers[identifier]], where
    [tmp] is what the walk along [path] reaches. *)
Definition ref : Type := (list string * string)%type.

(** [self.stack.pop()] *)
Definition stack_pop : method string :=
  fun self =>
    match list_pop (stack self) with
    | None => (self, raise IndexError)
    | Some (rest, top) => ({| stack := rest; timers := timers self |}, ok top)
    end.

(** [self.stack.append(identifier)] *)
Definition stack_append (identifier : string) : method unit :=
  fun self =>
    ({| stack := stack self ++ [identifier]; timers := timers self |}, ok tt).

(** [assert b] *)
Definition assert_ (b : bool) : method unit :=
  if b then ret tt else throw AssertionError.

(** Replace [self.timers] by the outcome of [f], if it has one. *)
Definition assign_timers (f : dict H.t -> result (dict H.t)) : method unit :=
  fun self =>
    match f (timers self) with
    | inl d => ({| stack := stack self; timers := d |}, ok tt)
    | inr e => (self, raise e)
    end.

(** [timer.m()] for a reference [timer] that [_get_timer] returned. *)
Definition call (timer : ref) (m : H.t -> result H.t) : method unit :=
  let '(path, identifier) := timer in
  assign_timers
    (modify_at path
       (fun d => do h <- dict_item identifier d;
                 do h' <- m h;
                 ok (dict_set identifier h' d))).

Definition _get_timer (identifier : string) (should_exist : bool)
  : method ref :=
  fun self =>
    match descend (stack self) (timers self) with
    | inr e => (self, raise e)
    | inl tmp_timers =>
        if dict_mem identifier tmp_timers then
          (self, ok (stack self, identifier))
        else if should_exist then
          (self, raise RuntimeError)
        else
          (_ <- assign_timers
                  (modify_at (stack self)
                     (fun d => ok (dict_set identifier H.__init__ d))) ;;
           ret (stack self, identifier)) self
    end.

Definition start_increment (now : Q) (identifier : string) : method unit :=
  timer <- _get_timer identifier false ;;
  _ <- call timer (fun h => ok (H.start_increment now h)) ;;
  stack_append identifier.

Definition stop_increment (now : Q) (identifier : string) : method unit :=
  top <- stack_pop ;;
  _ <- assert_ (String.eqb identifier top) ;;
  timer <- _get_timer identifier true ;;
  call timer (H.stop_increment now).

(** The [for] statement of [__str__], carrying [s]. *)
Fixpoint str_loop (items : dict H.t) (s : string) : result string :=
  match items with
  | [] => ok s
  | (name, timer) :: items' =>
      let s := s ++ ljust 30 name in
      let s := s ++ rjust 15 (format_e 2 (H.total_time timer)) in
      let s := s ++ rjust 15 (format_d (H.n_calls timer)) in
      do avg <- truediv (H.total_time timer) (inject_Z (H.n_calls timer));
      let s := s ++ rjust 15 (format_e 2 avg) ++ nl in
      do sub <- H.print timer "    ";
      let s := s ++ sub in
      str_loop items' s
  end.

Definition __str__ (self : t) : result string :=
  str_loop (timers self) "".

Definition reset : method unit :=
  fun _ => ({| stack := []; timers := [] |}, ok tt).

End HierarchicalTimer.

Module HT := HierarchicalTimer.

(** ** Runs of the timer *)

(** What a caller can do with a timer.  [Report] is [str(timer)]. *)
Inductive call : Type :=
| Start (identifier : string)
| Stop (identifier : string)
| Report.

Definition raised {A : Type} (r : result A) : option exn :=
  match r with
  | inl _ => None
  | inr e => Some e
  end.

(** One call, made when the clock reads [now]: the timer it leaves
    behind and the exception it raised, if any.  [__str__] assigns to
    nothing, so [Report] leaves the timer as it was. *)
Definition step (now : Q) (c : call) (self : HT.t) : HT.t * option exn :=
  match c with
  | Start identifier =>
      let r := HT.start_increment now identifier self in (fst r, raised (snd r))
  | Stop identifier =>
      let r := HT.stop_increment now identifier self in (fst r, raised (snd r))
  | Report => (self, raised (HT.__str__ self))
  end.

(** A caller that catches whatever is raised and goes on. *)
Fixpoint run (calls : list (Q * call)) (self : HT.t) : HT.t :=
  match calls with
  | [] => self
  | (now, c) :: calls' => run calls' (fst (step now c self))
  end.

Definition reachable (self : HT.t) : Prop :=
  exists calls, run calls HT.__init__ = self.

(** No call of the run raises. *)
Fixpoint error_free (calls : list (Q * call)) (self : HT.t) : bool :=
  match calls with
  | [] => true
  | (now, c) :: calls' =>
      match snd (step now c self) with
      | None => error_free calls' (fst (step now c self))
      | Some _ => false
      end
  end.

(** The clock readings of a run never decrease. *)
Fixpoint readings_from (lo : Q) (calls : list (Q * call)) : bool :=
  match calls with
  | [] => true
  | (now, _) :: calls' => Qle_bool lo now && readings_from now calls'
  end.

Definition monotone_clock (calls : list (Q * call)) : bool :=
  match calls with
  | [] => true
  | (now, _) :: calls' => readings_from now calls'
  end.

(** The fields of an accumulator that the increments assign to. *)
Definition counters (h : H.t) : Q * option Q * Z :=
  (H.total_time h, H.t0 h, H.n_calls h).

(** *** Which accumulator a call reaches *)

Inductive increment : Type := StartIncrement | StopIncrement.

(** The path of the node a reference points to. *)
Definition path_of (timer : HT.ref) : list string :=
  fst timer ++ [snd timer].

(** The accumulator on which a call invokes [start_increment] or
    [stop_increment]: the one [_get_timer] returns, when the call gets
    that far. *)
Definition invoked (c : call) (self : HT.t)
  : option (list string * increment) :=
  match c with
  | Start identifier =>
      match snd (HT._get_timer identifier false self) with
      | inl timer => Some (path_of timer, StartIncrement)
      | inr _ => None
      end
  | Stop identifier =>
      match
        snd (HT.seq HT.stack_pop (fun top =>
             HT.seq (HT.assert_ (String.eqb identifier top)) (fun _ =>
             HT._get_timer identifier true)) self)
      with
      | inl timer => Some (path_of timer, StopIncrement)
      | inr _ => None
      end
  | Report => None
  end.

(** The increments a run invokes, in order, with their accumulators. *)
Fixpoint invocations (calls : list (Q * call)) (self : HT.t)
  : list (list string * increment) :=
  match calls with
  | [] => []
  | (now, c) :: calls' =>
      match invoked c self with
      | Some i => [i]
      | None => []
      end ++ invocations calls' (fst (step now c self))
  end.

(** The increments invoked on the accumulator at [path]. *)
Definition increments_on (path : list string)
    (log : list (list string * increment)) : list increment :=
  map snd
    (filter (fun i => if list_eq_dec string_dec (fst i) path
                      then true else false) log).

(** An accumulator that is [running] or idle sees [start_increment] only
    when idle and [stop_increment] only when running. *)
Fixpoint alternates (running : bool) (log : list increment) : bool :=
  match log with
  | [] => true
  | StartIncrement :: log' => negb running && alternates true log'
  | StopIncrement :: log' => running && alternates false log'
  end.

(** ** The report, as the specification lays it out *)

(** The [for] statement of [_HierarchicalHelper.print], for a parent
    whose [total_time] is [parent_total]. *)
Fixpoint print_loop (parent_total : Q) (indent : string) (items : dict H.t)
    (s : string) (other_time : Q) : result (string * Q) :=
  match items with
  | [] => ok (s, other_time)
  | (name, timer) :: items' =>
      let s := s ++ indent in
      let s := s ++ ljust 30 name in
      let s := s ++ rjust 15 (format_e 2 (H.total_time timer)) in
      let s := s ++ rjust 15 (format_d (H.n_calls timer)) in
      do avg <- truediv (H.total_time timer) (inject_Z (H.n_calls timer));
      let s := s ++ rjust 15 (format_e 2 avg) in
      do frac <- truediv (H.total_time timer) parent_total;
      let s := s ++ rjust 15 (format_f 1 (frac * 100)) ++ "%" ++ nl in
      do sub <- H.print timer (indent ++ "    ");
      let s := s ++ sub in
      let other_time := other_time - H.total_time timer in
      print_loop parent_total indent items' s other_time
  end.

(** The four columns every region row starts with. *)
Definition columns (name : string) (timer : H.t) : string :=
  ljust 30 name
  ++ rjust 15 (format_e 2 (H.total_time timer))
  ++ rjust 15 (format_d (H.n_calls timer))
  ++ rjust 15 (format_e 2 (H.total_time timer / inject_Z (H.n_calls timer))).

(** The percentage column and the end of the line. *)
Definition percent_column (part whole : Q) : string :=
  rjust 15 (format_f 1 (part / whole * 100)) ++ "%" ++ nl.

(** The row the specification describes. *)
Definition spec_row (parent_total : Q) (name : string) (timer : H.t)
  : string :=
  columns name timer ++ percent_column (H.total_time timer) parent_total.

(** The row of a top-level region: no percentage column. *)
Definition top_row (name : string) (timer : H.t) : string :=
  columns name timer ++ nl.

(** What is left of the parent's time after its children, subtracted one
    after the other as the loop does. *)
Definition residual (parent_total : Q) (items : dict H.t) : Q :=
  fold_left (fun other timer => other - H.total_time (snd timer))
            items parent_total.

Definition other_row (parent_total : Q) (items : dict H.t) : string :=
  ljust 30 "other"
  ++ rjust 15 (format_e 2 (residual parent_total items))
  ++ rjust 15 "N/A" ++ rjust 15 "N/A"
  ++ percent_column (residual parent_total items) parent_total.

(** The rows below an accumulator: one per child, each followed by the
    rows below that child one indent deeper, then the [other] row;
    nothing at all without children. *)
Fixpoint rows_below (self : H.t) (indent : string) {struct self} : string :=
  match H.timers self with
  | [] => ""
  | _ :: _ =>
      String.concat ""
        (map (fun item =>
                indent ++ spec_row (H.total_time self) (fst item) (snd item)
                ++ rows_below (snd item) (indent ++ "    "))
             (H.timers self))
      ++ indent ++ other_row (H.total_time self) (H.timers self)
  end.

Definition report_layout (self : HT.t) : string :=
  String.concat ""
    (map (fun item => top_row (fst item) (snd item)
                      ++ rows_below (snd item) "    ")
         (HT.timers self)).

(** *** When the report can be produced *)

(** No division below [self] is a division by zero: an accumulator with
    children has a [total_time] other than zero, and every child has
    completed a call. *)
Fixpoint divisions_defined (self : H.t) : bool :=
  match H.timers self with
  | [] => true
  | _ :: _ =>
      negb (Qeq_bool (H.total_time self) 0)
      && forallb (fun item => negb (H.n_calls (snd item) =? 0)%Z
                              && divisions_defined (snd item))
                 (H.timers self)
  end.

(** The row of [item] and the rows below it divide by nothing that is
    zero. *)
Definition child_defined (item : string * H.t) : bool :=
  negb (H.n_calls (snd item) =? 0)%Z && divisions_defined (snd item).

Definition report_defined (self : HT.t) : bool :=
  forallb child_defined (HT.timers self).

(** [print] raises where a division is not defined, and returns the
    layout where all are. *)
Definition print_correct (self : H.t) : Prop :=
  forall indent,
    H.print self indent =
      if divisions_defined self then ok (rows_below self indent)
      else raise ZeroDivisionError.

(** ** States used as examples *)

(** An accumulator after one completed [start_increment] (clock at 1) and
    [stop_increment] (clock at 3). *)
Definition completed_once : H.t :=
  {| H.total_time := 0 + (3 - 1); H.t0 := Some 1; H.n_calls := 0 + 1;
     H.timers := [] |}.

(** [start("a")]: region [a] is open. *)
Definition open_a : HT.t := run [(1, Start "a")] HT.__init__.

(** [start("a"); start("b")]: both regions are open. *)
Definition open_a_b : HT.t := run [(1, Start "a"); (2, Start "b")] HT.__init__.

(** [start("a"); start("b"); stop("b"); stop("a")], closed again. *)
Definition closed_a_b : HT.t :=
  run [(1, Start "a"); (2, Start "b"); (3, Stop "b"); (7 # 2, Stop "a")]
      HT.__init__.

(** The same calls with a clock that does not advance. *)
Definition closed_a_b_frozen : HT.t :=
  run [(1, Start "a"); (1, Start "b"); (1, Stop "b"); (1, Stop "a")]
      HT.__init__.

(** [start("a"); stop("a")] *)
Definition closed_a : HT.t := run [(1, Start "a"); (2, Stop "a")] HT.__init__.

(** The calls of the recursive-use scenario. *)
Definition recursive_calls (c1 c2 c3 c4 c5 c6 : Q) : list (Q * call) :=
  [(c1, Start "a"); (c2, Start "b"); (c3, Start "a");
   (c4, Stop "a"); (c5, Stop "b"); (c6, Stop "a")].

(** ** How a call changes the tree *)

(** The change of a dict that assigns to [d[k]] and keeps what is below
    the accumulator stored there. *)
Definition local_change (k : string) (before after : dict H.t) : Prop :=
  forall path, path <> [k] -> node_at path after = node_at path before.

(** The counters of every accumulator but the one at [target] are as
    they were. *)
Definition frame (target : list string) (before after : dict H.t) : Prop :=
  forall path,
    path <> target ->
    option_map counters (node_at path after)
    = option_map counters (node_at path before).

(** What the increment [m], invoked when the clock reads [now], makes of
    the counters of an accumulator; [before] is [None] for an
    accumulator that the call creates. *)
Definition incremented (now : Q) (m : increment) (before : option H.t)
    (after : H.t) : Prop :=
  match m with
  | StartIncrement =>
      counters after =
        match before with
        | Some h => (H.total_time h, Some now, H.n_calls h)
        | None => (0, Some now, 0%Z)
        end
  | StopIncrement =>
      exists h start,
        before = Some h /\ H.t0 h = Some start
        /\ counters after =
             (H.total_time h + (now - start), Some start,
              (H.n_calls h + 1)%Z)
  end.

(** ** Invariants of a run *)

(** With the clock at [now]: every accumulator has counters that are not
    negative, and a start time that is not in the future. *)
Definition tree_inv (now : Q) (d : dict H.t) : Prop :=
  forall path h,
    node_at path d = Some h ->
    0 <= H.total_time h /\ (0 <= H.n_calls h)%Z
    /\ forall start, H.t0 h = Some start -> start <= now.

(** [path] is the beginning of [stack]. *)
Fixpoint prefixb (path stack : list string) : bool :=
  match path, stack with
  | [], _ => true
  | _ :: _, [] => false
  | i :: path', j :: stack' => String.eqb i j && prefixb path' stack'
  end.

(** The region at [path] is one of the regions the stack holds open. *)
Definition is_open (path stack : list string) : bool :=
  match path with
  | [] => false
  | _ :: _ => prefixb path stack
  end.

(** ** [class TicTocTimer] *)

Module TicTocTimer.

(** Where a message goes: [sys.stdout] or another stream object.
    Stream objects and loggers are told apart by a number. *)
Inductive stream : Type :=
| stdout
| stream_object (id : nat).

Inductive output : Type :=
| Write (to : stream) (msg : string)   (* [ostream.write(msg)] *)
| Info (logger : nat) (msg : string).  (* [logger.info(msg)] *)

(** What the methods use of the world outside the timer: the readings
    that [_time_source()] returns, one after the other; how many it has
    returned; the file, line and function of the caller, as
    [traceback.extract_stack(limit=2)[0][:3]] reports them; and all that
    has been written. *)
Record world : Type :=
  Build_world {
    clock : nat -> Q;
    reads : nat;
    caller : string * Z * string;
    written : list output
  }.

Record t : Type :=
  Build {
    _lastTime : option Q;
    _loadTime : Q;
    _ostream : option stream;
    _logger : option nat;
    _start_count : Z;
    _cumul : Q
  }.

(** A method runs on [self] in a world, and returns or raises. *)
Definition method (A : Type) : Type := t * world -> (t * world) * result A.

Definition ret {A : Type} (a : A) : method A := fun s => (s, ok a).

Definition throw {A : Type} (e : exn) : method A := fun s => (s, raise e).

Definition seq {A B : Type} (m : method A) (k : A -> method B) : method B :=
  fun s =>
    match m s with
    | (s', inl a) => k a s'
    | (s', inr e) => (s', inr e)
    end.

Declare Scope tictoc_scope.
Delimit Scope tictoc_scope with tictoc.
Notation "x <- m ;; k" := (seq m (fun x => k))
  (at level 100, m at next level, right associativity) : tictoc_scope.
Local Open Scope tictoc_scope.

(** The reading that [_time_source()] returns next. *)
Definition reading (w : world) : Q := clock w (reads w).

(** The world after one more reading of the clock. *)
Definition tick (w : world) : world :=
  {| clock := clock w; reads := S (reads w);
     caller := caller w; written := written w |}.

(** [_time_source()] *)
Definition _time_source : method Q :=
  fun '(self, w) => ((self, tick w), ok (reading w)).

(** [self] *)
Definition get_self : method t := fun '(self, w) => ((self, w), ok self).

(** [self._lastTime = v] *)
Definition set_lastTime (v : option Q) : method unit :=
  fun '(self, w) =>
    (({| _lastTime := v; _loadTime := _loadTime self;
         _ostream := _ostream self; _logger := _logger self;
         _start_count := _start_count self; _cumul := _cumul self |}, w),
     ok tt).

(** [self._cumul += delta] *)
Definition add_cumul (delta : Q) : method unit :=
  fun '(self, w) =>
    (({| _lastTime := _lastTime self; _loadTime := _loadTime self;
         _ostream := _ostream self; _logger := _logger self;
         _start_count := _start_count self;
         _cumul := _cumul self + delta |}, w),
     ok tt).

(** [self._start_count += 1] *)
Definition incr_start_count : method unit :=
  fun '(self, w) =>
    (({| _lastTime := _lastTime self; _loadTime := _loadTime self;
         _ostream := _ostream self; _logger := _logger self;
         _start_count := _start_count self + 1;
         _cumul := _cumul self |}, w),
     ok tt).

Definition emit (o : output) : method unit :=
  fun '(self, w) =>
    ((self, {| clock := clock w; reads := reads w; caller := caller w;
               written := written w ++ [o] |}),
     ok tt).

(** The truth value of [self._lastTime]: [None] and [0.0] are false. *)
Definition truthy (v : option Q) : bool :=
  match v with
  | None => false
  | Some x => negb (Qeq_bool x 0)
  end.

(** The truth value of a string: the empty string is false. *)
Definition nonempty (s : string) : bool :=
  match s with
  | EmptyString => false
  | String _ _ => true
  end.

(** [x - self._lastTime]: a [TypeError] when [_lastTime] is [None]. *)
Definition since (x : Q) (last : option Q) : method Q :=
  match last with
  | Some l => ret (x - l)
  | None => throw TypeError
  end.

Definition quote : string := String "034"%char EmptyString.

(** ['File "%s", line %s in %s' % frame] *)
Definition format_caller (frame : string * Z * string) : string :=
  let '(file, line, name) := frame in
  "File " ++ quote ++ file ++ quote ++ ", line " ++ format_d line
  ++ " in " ++ name.

(** [TicTocTimer(ostream, logger)] *)
Definition __init__ (ostream : option stream) (logger : option nat)
    (w : world) : t * world :=
  ({| _lastTime := Some (reading w);
      _loadTime := reading w;
      _ostream := ostream; _logger := logger;
      _start_count := 0; _cumul := 0 |},
   tick w).

(** The end of [toc]: where the message goes. *)
Definition deliver (self : t) (msg : string) (ostream : option stream)
    (logger : option nat) : method unit :=
  if nonempty msg then
    let ostream :=
      match ostream with
      | Some o => Some o
      | None =>
          match _ostream self, logger with
          | Some o, _ => Some o
          | None, None => Some stdout
          | None, Some _ => None
          end
      end in
    _ <- match ostream with
         | Some o => emit (Write o msg)
         | None => ret tt
         end ;;
    let logger :=
      match logger with
      | Some l => Some l
      | None => _logger self
      end in
    match logger with
    | Some l => emit (Info l msg)
    | None => ret tt
    end
  else ret tt.

(** ["[%8.2f|%4d] %s\n" % (ans, self._start_count, msg)], if [msg] is
    true *)
Definition cumul_line (ans : Q) (count : Z) (msg : string) : string :=
  if nonempty msg then
    "[" ++ rjust 8 (format_f 2 ans) ++ "|" ++ rjust 4 (format_d count)
    ++ "] " ++ msg ++ nl
  else msg.

(** ["[+%7.2f] %s\n" % (ans, msg)], if [msg] is true *)
Definition delta_line (ans : Q) (msg : string) : string :=
  if nonempty msg then
    "[+" ++ rjust 7 (format_f 2 ans) ++ "] " ++ msg ++ nl
  else msg.

(** ["[%8.2f] %s\n" % (ans, msg)], if [msg] is true *)
Definition load_line (ans : Q) (msg : string) : string :=
  if nonempty msg then
    "[" ++ rjust 8 (format_f 2 ans) ++ "] " ++ msg ++ nl
  else msg.

Definition toc (msg : option string) (delta : bool)
    (ostream : option stream) (logger : option nat) : method Q :=
  msg <- match msg with
         | None => fun '(self, w) => ((self, w), ok (format_caller (caller w)))
         | Some m => ret m
         end ;;
  now <- _time_source ;;
  self <- get_self ;;
  r <- (if negb (_start_count self =? 0)%Z
           || match _lastTime self with None => true | Some _ => false end
        then
          ans <- (if truthy (_lastTime self) then
                    now' <- _time_source ;;
                    d <- since now' (_lastTime self) ;;
                    ret (_cumul self + d)
                  else ret (_cumul self)) ;;
          ret (ans, cumul_line ans (_start_count self) msg)
        else if delta then
          ans <- since now (_lastTime self) ;;
          _ <- set_lastTime (Some now) ;;
          ret (ans, delta_line ans msg)
        else
          let ans := now - _loadTime self in
          ret (ans, load_line ans msg)) ;;
  _ <- deliver self (snd r) ostream logger ;;
  ret (fst r).

Definition tic (msg : option string) (ostream : option stream)
    (logger : option nat) : method unit :=
  now <- _time_source ;;
  _ <- set_lastTime (Some now) ;;
  let msg :=
    match msg with
    | None => "Resetting the tic/toc delta timer"
    | Some m => m
    end in
  if nonempty msg then
    _ <- toc (Some msg) false ostream logger ;; ret tt
  else ret tt.

(** The [TypeError] of the subtraction is caught; with [_lastTime] at
    [None] it becomes a [RuntimeError]. *)
Definition stop : method Q :=
  now <- _time_source ;;
  self <- get_self ;;
  match _lastTime self with
  | None => throw RuntimeError
  | Some last =>
      let delta := now - last in
      _ <- add_cumul delta ;;
      _ <- set_lastTime None ;;
      ret delta
  end.

Definition start : method unit :=
  self <- get_self ;;
  _ <- (if truthy (_lastTime self) then _ <- stop ;; ret tt else ret tt) ;;
  _ <- incr_start_count ;;
  now <- _time_source ;;
  set_lastTime (Some now).

End TicTocTimer.

Module TT := TicTocTimer.

(** *** Runs of a [TicTocTimer] *)

Inductive tictoc_call : Type :=
| Tic (msg : option string) (ostream : option TT.stream)
      (logger : option nat)
| Toc (msg : option string) (delta : bool) (ostream : option TT.stream)
      (logger : option nat)
| TStop
| TStart.

(** One call: the timer and world it leaves, and what it raised. *)
Definition tictoc_step (c : tictoc_call) (s : TT.t * TT.world)
  : (TT.t * TT.world) * option exn :=
  match c with
  | Tic msg ostream logger =>
      let r := TT.tic msg ostream logger s in (fst r, raised (snd r))
  | Toc msg delta ostream logger =>
      let r := TT.toc msg delta ostream logger s in (fst r, raised (snd r))
  | TStop => let r := TT.stop s in (fst r, raised (snd r))
  | TStart => let r := TT.start s in (fst r, raised (snd r))
  end.

Fixpoint tictoc_run (calls : list tictoc_call) (s : TT.t * TT.world)
  : TT.t * TT.world :=
  match calls with
  | [] => s
  | c :: calls' => tictoc_run calls' (fst (tictoc_step c s))
  end.

(** The number of [start()] calls among [calls]. *)
Fixpoint starts (calls : list tictoc_call) : Z :=
  match calls with
  | [] => 0%Z
  | TStart :: calls' => (1 + starts calls')%Z
  | _ :: calls' => starts calls'
  end.




(** The world after [n] readings of the clock and the writing of
    [outs]. *)
Definition later_world (w : TT.world) (n : nat) (outs : list TT.output)
  : TT.world :=
  {| TT.clock := TT.clock w; TT.reads := (n + TT.reads w)%nat;
     TT.caller := TT.caller w; TT.written := TT.written w ++ outs |}.

(** What [toc] writes for a message: to the stream given, else to the
    timer's stream, else to [sys.stdout] unless a logger was given; and
    to the logger given, else to the timer's logger. *)
Definition deliveries (self : TT.t) (msg : string)
    (ostream : option TT.stream) (logger : option nat) : list TT.output :=
  if TT.nonempty msg then
    match ostream, TT._ostream self, logger with
    | Some o, _, _ => [TT.Write o msg]
    | None, Some o, _ => [TT.Write o msg]
    | None, None, None => [TT.Write TT.stdout msg]
    | None, None, Some _ => []
    end
    ++ match logger, TT._logger self with
       | Some l, _ => [TT.Info l msg]
       | None, Some l => [TT.Info l msg]
       | None, None => []
       end
  else [].

(** [self] with [_lastTime] set to [v]. *)
Definition with_lastTime (self : TT.t) (v : option Q) : TT.t :=
  {| TT._lastTime := v; TT._loadTime := TT._loadTime self;
     TT._ostream := TT._ostream self; TT._logger := TT._logger self;
     TT._start_count := TT._start_count self; TT._cumul := TT._cumul self |}.

(** [toc] moves the reference time: it was asked for the delta, no
    [start()] has been called, and the timer is not stopped. *)
Definition moves_reference (delta : bool) (self : TT.t) : bool :=
  delta && (TT._start_count self =? 0)%Z
  && match TT._lastTime self with Some _ => true | None => false end.

(** The message of [toc], before the time is put in front of it. *)
Definition toc_msg (msg : option string) (w : TT.world) : string :=
  match msg with
  | None => TT.format_caller (TT.caller w)
  | Some m => m
  end.

(** A world whose clock reads 1, 2, 3, ... and a timer made in it. *)
Definition counting_world : TT.world :=
  {| TT.clock := fun n => inject_Z (Z.of_nat n) + 1; TT.reads := 0;
     TT.caller := ("script.py", 12%Z, "main"); TT.written := [] |}.

Definition new_timer : TT.t * TT.world :=
  TT.__init__ None None counting_world.

(** A timer made with logger 7 and no stream. *)
Definition logging_timer : TT.t * TT.world :=
  TT.__init__ None (Some 7%nat) counting_world.

(** The clock of the world never goes back. *)
Definition clock_monotone (w : TT.world) : Prop :=
  forall i j, (i <= j)%nat -> TT.clock w i <= TT.clock w j.

(** The reference time of the timer is a reading the clock has given. *)
Definition reference_read (s : TT.t * TT.world) : Prop :=
  forall last,
    TT._lastTime (fst s) = Some last ->
    exists i, (i < TT.reads (snd s))%nat /\ last = TT.clock (snd s) i.

(** ** Runs that keep to the discipline *)

(** Every region that the stack holds open has its accumulator in the
    tree, and that accumulator has been started. *)
Definition stack_inv (self : HT.t) : Prop :=
  forall path,
    is_open path (HT.stack self) = true ->
    exists h, node_at path (HT.timers self) = Some h /\ H.t0 h <> None.

(** Calls that open and close regions as a call stack does: every
    [start(name)] has its [stop(name)], with whole regions between. *)
Inductive nested : list (Q * call) -> Prop :=
| nested_nil : nested []
| nested_region (opened : Q) (name : string) (inner : list (Q * call))
    (closed : Q) (rest : list (Q * call)) :
    nested inner -> nested rest ->
    nested ((opened, Start name) :: inner ++ (closed, Stop name) :: rest).

(** [path] is below the region at [stack]: longer, and beginning with
    it. *)
Definition below (stack path : list string) : bool :=
  prefixb stack path && (List.length stack <? List.length path)%nat.

(** The calls of [start("setup"); stop("setup")], made twice. *)
Definition two_setups : list (Q * call) :=
  [(2, Start "setup"); (3, Stop "setup");
   (4, Start "setup"); (5, Stop "setup")].

(** No two entries of a dict of the tree have the same key, as in a
    Python [dict]. *)
Inductive unique_keys : dict H.t -> Prop :=
| unique_keys_intro (d : dict H.t) :
    NoDup (map fst d) ->
    (forall k h, In (k, h) d -> unique_keys (H.timers h)) ->
    unique_keys d.

(** The readings of a run go up from one call to the next. *)
Fixpoint readings_above (lo : Q) (calls : list (Q * call)) : Prop :=
  match calls with
  | [] => True
  | (now, _) :: calls' => lo < now /\ readings_above now calls'
  end.

Definition advancing_clock (calls : list (Q * call)) : Prop :=
  match calls with
  | [] => True
  | (now, _) :: calls' => readings_above now calls'
  end.

(** Every accumulator that the stack does not hold open has completed a
    call and has taken time. *)
Definition closed_regions_counted (self : HT.t) : Prop :=
  forall path h,
    node_at path (HT.timers self) = Some h ->
    is_open path (HT.stack self) = false ->
    (1 <= H.n_calls h)%Z /\ 0 < H.total_time h.

(** The accumulator that a [start] or a [stop] that returns leaves at
    the key it assigns to; [before] is the entry that was there. *)
Definition assigned (now : Q) (m : increment) (before : option H.t)
    (after : H.t) : Prop :=
  match m, before with
  | StartIncrement, Some h => after = H.start_increment now h
  | StartIncrement, None => after = H.start_increment now H.__init__
  | StopIncrement, Some h => H.stop_increment now h = ok after
  | StopIncrement, None => False
  end.

(** The tree after [tmp.timers[name] = v], where [tmp] is what the walk
    along [path] reaches. *)
Definition assign_at (path : list string) (name : string) (v : H.t)
    (d : dict H.t) : result (dict H.t) :=
  modify_at path (fun dd => ok (dict_set name v dd)) d.

(** The children of the entry under [name], if there is one. *)
Definition children_at (name : string) (dd : dict H.t) : dict H.t :=
  match dict_get name dd with
  | Some h => H.timers h
  | None => []
  end.

(** ** The log of a run and what the run does *)

(** What [invoked] says of a call is what the call does to the tree: the
    increment it names is made on the accumulator it names, and the
    counters of all other accumulators stay as they are; a call for
    which it names none leaves the tree as it is. *)
Definition step_as_logged (now : Q) (c : call) (self : HT.t) : Prop :=
  match invoked c self with
  | Some (target, m) =>
      exists after,
        node_at target (HT.timers (fst (step now c self))) = Some after
        /\ incremented now m (node_at target (HT.timers self)) after
        /\ frame target (HT.timers self) (HT.timers (fst (step now c self)))
  | None => HT.timers (fst (step now c self)) = HT.timers self
  end.

(** Every call of the run does what [invocations] logs for it. *)
Fixpoint run_as_logged (calls : list (Q * call)) (self : HT.t) : Prop :=
  match calls with
  | [] => True
  | (now, c) :: calls' =>
      step_as_logged now c self
      /\ run_as_logged calls' (fst (step now c self))
  end.

(** * Properties *)

(** ** Containers *)

Section DictFacts.
Context {V : Type}.
Implicit Types (d : dict V) (k : string) (v : V).

Lemma dict_get_set_same k v d : dict_get k (dict_set k v d) = Some v.
Proof.
  induction d as [|[k' v'] d IH]; simpl.
  - now rewrite String.eqb_refl.
  - destruct (String.eqb k k') eqn:E; simpl; rewrite E; auto.
Qed.

Lemma dict_get_set_other k k' v d :
  k' <> k -> dict_get k' (dict_set k v d) = dict_get k' d.
Proof.
  intros Hne. induction d as [|[k2 v2] d IH]; simpl.
  - destruct (String.eqb_spec k' k); congruence.
  - destruct (String.eqb_spec k k2) as [->|Hk]; simpl.
    + destruct (String.eqb_spec k' k2); congruence.
    + now rewrite IH.
Qed.

End DictFacts.

Lemma list_pop_snoc {A : Type} (l : list A) (x : A) :
  list_pop (l ++ [x]) = Some (l, x).
Proof.
  induction l as [|y l IH]; simpl; [reflexivity|].
  now rewrite IH.
Qed.

Lemma list_pop_none {A : Type} (l : list A) : list_pop l = None -> l = [].
Proof.
  destruct l as [|x l]; simpl; [reflexivity|].
  destruct (list_pop l) as [[r y]|]; discriminate.
Qed.

Lemma list_pop_some {A : Type} (l r : list A) (x : A) :
  list_pop l = Some (r, x) -> l = (r ++ [x])%list.
Proof.
  revert r. induction l as [|y l IH]; simpl; intros r; [discriminate|].
  destruct (list_pop l) as [[r' z]|] eqn:E.
  - intros [= <- <-]. simpl. f_equal. now apply IH.
  - intros [= <- <-]. now rewrite (list_pop_none l E).
Qed.

(** ** [_HierarchicalHelper.stop_increment] *)

(** C6, as the code has it: [stop_increment] raises [TypeError] on an
    accumulator whose [t0] was never set and assigns to nothing; on any
    accumulator whose [t0] is set it adds [now - t0] to [total_time],
    increments [n_calls] by exactly 1 and leaves [t0] as it was, so that
    a further [stop_increment] is not rejected and counts again from the
    same [t0]. *)
Theorem C6_stop_increment_keeps_t0 (now later : Q) (self : H.t) :
  match H.t0 self with
  | None => H.stop_increment now self = raise TypeError
  | Some start =>
      let once :=
        {| H.total_time := H.total_time self + (now - start);
           H.t0 := Some start;
           H.n_calls := H.n_calls self + 1;
           H.timers := H.timers self |} in
      H.stop_increment now self = ok once
      /\ H.stop_increment later once =
           ok {| H.total_time := H.total_time once + (later - start);
                 H.t0 := Some start;
                 H.n_calls := H.n_calls once + 1;
                 H.timers := H.timers self |}
  end.
Proof.
  unfold H.stop_increment. destruct (H.t0 self) eqn:E; [|reflexivity].
  cbn. split; reflexivity.
Qed.

(** C6 fails as stated: after one [start_increment] and one
    [stop_increment] the accumulator is idle, yet its start time is still
    recorded, and a second [stop_increment] returns normally with
    [n_calls = 2] and a larger [total_time]. *)
Lemma C6_idle_stop_is_silent :
  H.stop_increment 3 (H.start_increment 1 H.__init__) = ok completed_once
  /\ H.t0 completed_once = Some 1
  /\ exists h, H.stop_increment 5 completed_once = ok h
               /\ H.n_calls h = 2%Z
               /\ H.total_time h == 6.
Proof.
  split; [reflexivity|]. split; [reflexivity|].
  eexists. split; [reflexivity|]. split; reflexivity.
Qed.

(** ** [HierarchicalTimer.stop_increment] and the stack *)

Lemma stop_increment_empty (now : Q) (name : string) (self : HT.t) :
  HT.stack self = [] ->
  HT.stop_increment now name self = (self, raise IndexError).
Proof.
  intros Hs. unfold HT.stop_increment, HT.seq, HT.stack_pop.
  now rewrite Hs.
Qed.

Lemma stop_increment_mismatch (now : Q) (name : string) (self : HT.t)
    (rest : list string) (top : string) :
  HT.stack self = (rest ++ [top])%list -> name <> top ->
  HT.stop_increment now name self =
    ({| HT.stack := rest; HT.timers := HT.timers self |}, raise AssertionError).
Proof.
  intros Hs Hne. unfold HT.stop_increment, HT.seq, HT.stack_pop.
  rewrite Hs, list_pop_snoc. unfold ok. cbv iota.
  destruct (String.eqb_spec name top) as [E|_]; [contradiction|].
  reflexivity.
Qed.

(** After the pop and a passed [assert], [stop_increment] goes on with
    the popped stack. *)
Lemma stop_increment_match (now : Q) (name : string) (self : HT.t)
    (rest : list string) :
  HT.stack self = (rest ++ [name])%list ->
  HT.stop_increment now name self =
    HT.seq (HT._get_timer name true)
           (fun timer => HT.call timer (H.stop_increment now))
           {| HT.stack := rest; HT.timers := HT.timers self |}.
Proof.
  intros Hs. unfold HT.stop_increment at 1, HT.seq at 1 2, HT.stack_pop.
  rewrite Hs, list_pop_snoc. unfold ok. cbv iota.
  rewrite String.eqb_refl. reflexivity.
Qed.

(** C3: with a non-empty stack, [stop(name)] for a [name] other than the
    top of the stack raises the [AssertionError] of the mismatch check,
    whatever the tree holds; and [stop(name)] returns normally only when
    [name] is the top of the stack. *)
Theorem C3_stop_requires_top (now : Q) (name : string) (self : HT.t)
    (rest : list string) (top : string) :
  HT.stack self = (rest ++ [top])%list ->
  (name <> top ->
   snd (HT.stop_increment now name self) = raise AssertionError)
  /\ (snd (HT.stop_increment now name self) = ok tt -> name = top).
Proof.
  intros Hs. split.
  - intros Hne. now rewrite (stop_increment_mismatch now name self rest top).
  - intros Hok. destruct (string_dec name top) as [E|Hne]; [exact E|].
    rewrite (stop_increment_mismatch now name self rest top Hs Hne) in Hok.
    discriminate.
Qed.

(** C3 at [start("a"); start("b"); stop("a")]: [a] is in the tree, but
    the top of the stack is [b]. *)
Lemma C3_witness :
  snd (HT.stop_increment 3 "a" open_a_b) = raise AssertionError.
Proof.
  apply (C3_stop_requires_top 3 "a" open_a_b ["a"] "b").
  - reflexivity.
  - discriminate.
Defined.

(** C9: when [stop(name)] raises for a mismatch, the top of the stack is
    already popped: the timer is left with the shorter stack and the
    tree untouched, so the accumulator of the popped entry has not been
    stopped.  On an empty stack the error is the [IndexError] of the pop,
    and the timer is as it was. *)
Theorem C9_mismatch_pops_first (now : Q) (name : string) (self : HT.t) :
  (HT.stack self = [] ->
   HT.stop_increment now name self = (self, raise IndexError))
  /\ (forall rest top,
        HT.stack self = (rest ++ [top])%list -> name <> top ->
        HT.stop_increment now name self =
          ({| HT.stack := rest; HT.timers := HT.timers self |},
           raise AssertionError)
        /\ S (List.length (HT.stack (fst (HT.stop_increment now name self))))
           = List.length (HT.stack self)
        /\ node_at (rest ++ [top])
                   (HT.timers (fst (HT.stop_increment now name self)))
           = node_at (rest ++ [top]) (HT.timers self)).
Proof.
  split.
  - apply stop_increment_empty.
  - intros rest top Hs Hne.
    rewrite (stop_increment_mismatch now name self rest top Hs Hne).
    split; [reflexivity|]. split; [|reflexivity].
    simpl. rewrite Hs, length_app. simpl. lia.
Qed.

(** C9 at [start("a"); start("b"); stop("a")]: the stack is left as
    [["a"]], and [b] is still as [start("b")] left it. *)
Lemma C9_witness :
  HT.stop_increment 3 "a" open_a_b =
    ({| HT.stack := ["a"]; HT.timers := HT.timers open_a_b |},
     raise AssertionError)
  /\ S (List.length (HT.stack (fst (HT.stop_increment 3 "a" open_a_b))))
     = List.length (HT.stack open_a_b)
  /\ node_at ["a"; "b"] (HT.timers (fst (HT.stop_increment 3 "a" open_a_b)))
     = node_at ["a"; "b"] (HT.timers open_a_b).
Proof.
  apply (proj2 (C9_mismatch_pops_first 3 "a" open_a_b) ["a"] "b").
  - reflexivity.
  - discriminate.
Defined.

(** ** [reset] *)

(** C7: [reset] leaves the initial timer: empty stack, empty tree, the
    empty report; and [start("x"); stop("x")] after it leaves exactly one
    accumulator, [x], with [n_calls = 1]. *)
Theorem C7_reset_gives_initial_state (self : HT.t) :
  HT.reset self = (HT.__init__, ok tt)
  /\ HT.stack (fst (HT.reset self)) = []
  /\ HT.__str__ (fst (HT.reset self)) = ok ""
  /\ forall c1 c2 : Q,
       error_free [(c1, Start "x"); (c2, Stop "x")] (fst (HT.reset self))
       = true
       /\ run [(c1, Start "x"); (c2, Stop "x")] (fst (HT.reset self)) =
            {| HT.stack := [];
               HT.timers :=
                 [("x", {| H.total_time := 0 + (c2 - c1);
                           H.t0 := Some c1;
                           H.n_calls := 1;
                           H.timers := [] |})] |}.
Proof.
  repeat split.
Qed.

(** ** Recursive use *)

Lemma recursive_calls_run (c1 c2 c3 c4 c5 c6 : Q) :
  error_free (recursive_calls c1 c2 c3 c4 c5 c6) HT.__init__ = true
  /\ run (recursive_calls c1 c2 c3 c4 c5 c6) HT.__init__ =
     {| HT.stack := [];
        HT.timers :=
          [("a",
            {| H.total_time := 0 + (c6 - c1); H.t0 := Some c1;
               H.n_calls := 1;
               H.timers :=
                 [("b",
                   {| H.total_time := 0 + (c5 - c2); H.t0 := Some c2;
                      H.n_calls := 1;
                      H.timers :=
                        [("a",
                          {| H.total_time := 0 + (c4 - c3);
                             H.t0 := Some c3;
                             H.n_calls := 1;
                             H.timers := [] |})] |})] |})] |}.
Proof.
  split; reflexivity.
Qed.

(** ** The report *)

(** Induction on the tree of accumulators. *)
Lemma helper_ind (P : H.t -> Prop) :
  (forall total start n items,
      Forall (fun item => P (snd item)) items ->
      P (H.Build total start n items)) ->
  forall h, P h.
Proof.
  intros step. fix rec 1. intros [total start n items]. apply step.
  induction items as [|[k c] items IH]; constructor; [apply rec | exact IH].
Qed.

(** [print] in terms of its loop. *)
Lemma print_unfold (self : H.t) (indent : string) :
  H.print self indent =
    match H.timers self with
    | [] => ok ""
    | _ :: _ =>
        do (s, other_time) <-
          print_loop (H.total_time self) indent (H.timers self) ""
                     (H.total_time self);
        let s := s ++ indent in
        let s := s ++ ljust 30 "other" in
        let s := s ++ rjust 15 (format_e 2 other_time) in
        let s := s ++ rjust 15 "N/A" in
        let s := s ++ rjust 15 "N/A" in
        do frac <- truediv other_time (H.total_time self);
        let s := s ++ rjust 15 (format_f 1 (frac * 100)) ++ "%" ++ nl in
        ok s
    end.
Proof.
  destruct self as [total start n items].
  cbn [H.print H.timers H.total_time].
  match goal with
  | |- context [bind (?loop items "" total) _] =>
      assert (E : forall l s o, loop l s o = print_loop total indent l s o)
  end.
  { induction l as [|[k c] l IH]; intros s o; [reflexivity|].
    cbn [print_loop].
    destruct (truediv (H.total_time c) (inject_Z (H.n_calls c))); [|reflexivity].
    cbn [bind].
    destruct (truediv (H.total_time c) total); [|reflexivity].
    cbn [bind].
    destruct (H.print c (indent ++ "    ")); [|reflexivity].
    cbn [bind]. apply IH. }
  destruct items as [|item items]; [reflexivity|].
  rewrite <- E. reflexivity.
Qed.

(** *** Strings *)

Lemma append_assoc (a b c : string) : (a ++ b) ++ c = a ++ (b ++ c).
Proof. induction a as [|x a IH]; simpl; [reflexivity | now rewrite IH]. Qed.

Lemma append_nil_r (a : string) : a ++ "" = a.
Proof. induction a as [|x a IH]; simpl; [reflexivity | now rewrite IH]. Qed.

Lemma concat_cons (x : string) (l : list string) :
  String.concat "" (x :: l) = x ++ String.concat "" l.
Proof.
  destruct l as [|y l]; simpl; [now rewrite append_nil_r | reflexivity].
Qed.

(** *** Divisions *)

Lemma truediv_zero (x y : Q) :
  Qeq_bool y 0 = true -> truediv x y = raise ZeroDivisionError.
Proof. unfold truediv. now intros ->. Qed.

Lemma truediv_nonzero (x y : Q) :
  Qeq_bool y 0 = false -> truediv x y = ok (x / y).
Proof. unfold truediv. now intros ->. Qed.

Lemma Qeq_bool_inject_Z (n : Z) : Qeq_bool (inject_Z n) 0 = (n =? 0)%Z.
Proof.
  destruct (Z.eqb_spec n 0) as [->|Hn]; [reflexivity|].
  destruct (Qeq_bool (inject_Z n) 0) eqn:E; [|reflexivity].
  apply Qeq_bool_eq in E. unfold Qeq in E. simpl in E. lia.
Qed.

(** *** The loops compute the layout *)

Lemma print_loop_zero_total (total : Q) (indent : string)
    (item : string * H.t) (items : dict H.t) (s : string) (o : Q) :
  Qeq_bool total 0 = true ->
  print_loop total indent (item :: items) s o = raise ZeroDivisionError.
Proof.
  intros Hz. destruct item as [name timer]. cbn [print_loop].
  unfold truediv at 1.
  destruct (Qeq_bool (inject_Z (H.n_calls timer)) 0); [reflexivity|].
  cbn [bind ok]. now rewrite (truediv_zero _ _ Hz).
Qed.

Lemma print_loop_layout (total : Q) (indent : string) (items : dict H.t) :
  Qeq_bool total 0 = false ->
  Forall (fun item => print_correct (snd item)) items ->
  forall s o,
    print_loop total indent items s o =
      if forallb child_defined items then
        ok (s ++ String.concat ""
                   (map (fun item =>
                           indent ++ spec_row total (fst item) (snd item)
                           ++ rows_below (snd item) (indent ++ "    "))
                        items),
            residual o items)
      else raise ZeroDivisionError.
Proof.
  intros Hnz Hitems. induction Hitems as [|[name timer] items Hc _ IH];
    intros s o.
  - cbn. now rewrite append_nil_r.
  - cbn [print_loop forallb map fst snd]. unfold child_defined at 1.
    cbn [snd]. unfold truediv at 1. rewrite Qeq_bool_inject_Z.
    destruct (H.n_calls timer =? 0)%Z; [reflexivity|].
    cbn [bind ok negb andb]. rewrite (truediv_nonzero _ _ Hnz).
    cbn [bind ok]. cbn [snd] in Hc. rewrite (Hc (indent ++ "    ")).
    destruct (divisions_defined timer); [|reflexivity].
    cbn [bind ok]. rewrite IH.
    destruct (forallb child_defined items); [|reflexivity].
    rewrite concat_cons. unfold residual. cbn [fold_left snd].
    unfold spec_row, columns, percent_column.
    f_equal. f_equal. now rewrite !append_assoc.
Qed.

Lemma print_result (self : H.t) : print_correct self.
Proof.
  induction self as [total start n items IH] using helper_ind.
  intros indent. rewrite print_unfold.
  cbn [H.timers H.total_time divisions_defined rows_below].
  destruct items as [|item items]; [reflexivity|].
  destruct (Qeq_bool total 0) eqn:Hz.
  - now rewrite print_loop_zero_total.
  - rewrite (print_loop_layout total indent (item :: items) Hz IH).
    cbn [negb andb]. fold child_defined.
    destruct (forallb child_defined (item :: items)); [|reflexivity].
    cbn [bind ok]. rewrite (truediv_nonzero _ _ Hz). cbn [bind ok].
    unfold other_row, percent_column. f_equal.
    cbn [append]. now rewrite !append_assoc.
Qed.

Lemma str_loop_layout (items : dict H.t) (s : string) :
  HT.str_loop items s =
    if forallb child_defined items then
      ok (s ++ String.concat ""
                 (map (fun item => top_row (fst item) (snd item)
                                   ++ rows_below (snd item) "    ")
                      items))
    else raise ZeroDivisionError.
Proof.
  revert s. induction items as [|[name timer] items IH]; intros s.
  - cbn. now rewrite append_nil_r.
  - cbn [HT.str_loop forallb map fst snd]. unfold child_defined at 1.
    cbn [snd]. unfold truediv. rewrite Qeq_bool_inject_Z.
    destruct (H.n_calls timer =? 0)%Z; [reflexivity|].
    cbn [bind ok negb andb]. rewrite (print_result timer "    ").
    destruct (divisions_defined timer); [|reflexivity].
    cbn [bind ok]. rewrite IH.
    destruct (forallb child_defined items); [|reflexivity].
    rewrite concat_cons. unfold top_row, columns.
    f_equal. now rewrite !append_assoc.
Qed.

(** The report is the layout when every division is defined, and a
    [ZeroDivisionError] otherwise. *)
Lemma str_result (self : HT.t) :
  HT.__str__ self =
    if report_defined self then ok (report_layout self)
    else raise ZeroDivisionError.
Proof.
  unfold HT.__str__, report_defined, report_layout.
  rewrite str_loop_layout. fold child_defined.
  now destruct (forallb child_defined (HT.timers self)).
Qed.

(** *** Accumulators that make the report fail *)

Lemma dict_get_In {V : Type} (k : string) (v : V) (d : dict V) :
  dict_get k d = Some v -> In (k, v) d.
Proof.
  induction d as [|[k' v'] d IH]; simpl; [discriminate|].
  destruct (String.eqb_spec k k') as [->|_].
  - intros [= ->]. now left.
  - intros Hd. right. now apply IH.
Qed.

Lemma node_at_nonempty (path : list string) (d : dict H.t) (h : H.t) :
  node_at path d = Some h -> d <> [].
Proof.
  destruct path as [|i path]; [discriminate|].
  destruct d; [discriminate | discriminate].
Qed.

Lemma divisions_defined_children (self : H.t) :
  divisions_defined self = true -> H.timers self <> [] ->
  Qeq_bool (H.total_time self) 0 = false
  /\ forallb child_defined (H.timers self) = true.
Proof.
  destruct self as [total start n items]. cbn.
  destruct items as [|item items]; [congruence|].
  intros Hd _. apply andb_prop in Hd. destruct Hd as [Hz Hc].
  split; [now destruct (Qeq_bool total 0) | exact Hc].
Qed.

(** Where every division is defined, every accumulator has completed a
    call and, if it has children, a [total_time] other than zero. *)
Lemma defined_everywhere (path : list string) :
  forall (d : dict H.t) (h : H.t),
    forallb child_defined d = true ->
    node_at path d = Some h ->
    H.n_calls h <> 0%Z /\ divisions_defined h = true.
Proof.
  induction path as [|i path IH]; intros d h Hd Hn; [discriminate|].
  cbn [node_at] in Hn. destruct (dict_get i d) as [tmp|] eqn:Hi;
    [|discriminate].
  apply dict_get_In in Hi.
  rewrite forallb_forall in Hd. specialize (Hd _ Hi).
  unfold child_defined in Hd. cbn [snd] in Hd.
  apply andb_prop in Hd. destruct Hd as [Hcalls Hdiv].
  destruct path as [|j path].
  - injection Hn as <-. split; [|exact Hdiv].
    intros E. rewrite E in Hcalls. discriminate.
  - apply (IH (H.timers tmp) h); [|exact Hn].
    apply divisions_defined_children; [exact Hdiv|].
    now apply (node_at_nonempty (j :: path) _ h).
Qed.

(** The report of a tree that holds an accumulator with a division by
    zero in its row or below it raises. *)
Lemma str_raises_at (self : HT.t) (path : list string) (h : H.t) :
  node_at path (HT.timers self) = Some h ->
  H.n_calls h = 0%Z \/ (H.timers h <> [] /\ H.total_time h == 0) ->
  HT.__str__ self = raise ZeroDivisionError.
Proof.
  intros Hn Hbad. rewrite str_result.
  destruct (report_defined self) eqn:Hd; [exfalso|reflexivity].
  destruct (defined_everywhere path _ h Hd Hn) as [Hcalls Hdiv].
  destruct Hbad as [E|[Hne Hz]]; [contradiction|].
  destruct (divisions_defined_children h Hdiv Hne) as [Hnz _].
  apply Qeq_bool_neq in Hnz. contradiction.
Qed.

(** C1, as the code has it: the report is produced when every division
    it makes is defined, and raises [ZeroDivisionError] otherwise.  It
    fails whenever the tree holds an accumulator with [n_calls = 0], as
    a region that was started and never stopped has, or an accumulator
    with children and a [total_time] of zero. *)
Theorem C1_report_raises_on_zero_division (self : HT.t) :
  (report_defined self = true -> HT.__str__ self = ok (report_layout self))
  /\ (report_defined self = false ->
      HT.__str__ self = raise ZeroDivisionError)
  /\ (forall path h,
        node_at path (HT.timers self) = Some h ->
        H.n_calls h = 0%Z \/ (H.timers h <> [] /\ H.total_time h == 0) ->
        HT.__str__ self = raise ZeroDivisionError).
Proof.
  split; [|split].
  - intros Hd. now rewrite str_result, Hd.
  - intros Hd. now rewrite str_result, Hd.
  - apply str_raises_at.
Qed.

(** C1 at [start("a")]: the open region has [n_calls = 0]. *)
Lemma C1_witness : HT.__str__ open_a = raise ZeroDivisionError.
Proof.
  apply (proj2 (proj2 (C1_report_raises_on_zero_division open_a))
           ["a"]
           {| H.total_time := 0; H.t0 := Some 1; H.n_calls := 0;
              H.timers := [] |}).
  - reflexivity.
  - left. reflexivity.
Defined.

(** C1 fails as stated: after [start("a")], a state that the calls
    reach, with [a] started and not yet stopped, the report raises. *)
Lemma C1_open_region_breaks_report :
  reachable open_a
  /\ node_at ["a"] (HT.timers open_a)
     = Some {| H.total_time := 0; H.t0 := Some 1; H.n_calls := 0;
               H.timers := [] |}
  /\ HT.__str__ open_a = raise ZeroDivisionError.
Proof.
  split; [|split; reflexivity].
  exists [(1, Start "a")]. reflexivity.
Qed.

(** C2, as the code has it: an accumulator with [total_time] zero and at
    least one child makes [print] raise [ZeroDivisionError], at the first
    child's average or percentage; so does the report of any timer whose
    tree holds such an accumulator.  No [0%] is rendered. *)
Theorem C2_zero_total_raises (self : HT.t) (path : list string) (h : H.t) :
  node_at path (HT.timers self) = Some h ->
  H.total_time h == 0 ->
  H.timers h <> [] ->
  (forall indent, H.print h indent = raise ZeroDivisionError)
  /\ HT.__str__ self = raise ZeroDivisionError.
Proof.
  intros Hn Hz Hne. split.
  - intros indent. rewrite print_unfold.
    destruct (H.timers h) as [|item items]; [congruence|].
    rewrite print_loop_zero_total; [reflexivity|].
    now apply Qeq_eq_bool.
  - apply (str_raises_at self path h Hn). right. now split.
Qed.

(** C2 at a run whose clock does not advance: [a] ends with a
    [total_time] of zero and the child [b]. *)
Lemma C2_witness :
  (forall indent,
      H.print {| H.total_time := 0 + (1 - 1); H.t0 := Some 1; H.n_calls := 1;
                 H.timers :=
                   [("b", {| H.total_time := 0 + (1 - 1); H.t0 := Some 1;
                             H.n_calls := 1; H.timers := [] |})] |}
              indent
      = raise ZeroDivisionError)
  /\ HT.__str__ closed_a_b_frozen = raise ZeroDivisionError.
Proof.
  apply (C2_zero_total_raises closed_a_b_frozen ["a"]).
  - reflexivity.
  - reflexivity.
  - discriminate.
Defined.

(** C2 fails as stated: the calls [start("a"); start("b"); stop("b");
    stop("a")], made while the clock reads the same, leave [a] with a
    [total_time] of zero and one child, and the percentage of that child
    is a [ZeroDivisionError], not [0%]. *)
Lemma C2_zero_total_is_an_error :
  reachable closed_a_b_frozen
  /\ (exists a,
        node_at ["a"] (HT.timers closed_a_b_frozen) = Some a
        /\ H.total_time a == 0
        /\ H.n_calls a = 1%Z
        /\ (exists b, H.timers a = [("b", b)] /\ H.n_calls b = 1%Z)
        /\ H.print a "    " = raise ZeroDivisionError)
  /\ HT.__str__ closed_a_b_frozen = raise ZeroDivisionError.
Proof.
  split; [|split].
  - exists [(1, Start "a"); (1, Start "b"); (1, Stop "b"); (1, Stop "a")].
    reflexivity.
  - eexists. split; [reflexivity|]. split; [reflexivity|].
    split; [reflexivity|]. split; [|reflexivity].
    eexists. split; reflexivity.
  - reflexivity.
Qed.

(** *** The layout of the rows *)

Lemma has_char_append (c : ascii) (a b : string) :
  has_char c (a ++ b) = has_char c a || has_char c b.
Proof.
  induction a as [|x a IH]; simpl; [reflexivity|].
  destruct (Ascii.eqb c x); [reflexivity | exact IH].
Qed.

Lemma spec_row_has_percent (total : Q) (name : string) (timer : H.t) :
  has_char "%" (spec_row total name timer) = true.
Proof.
  unfold spec_row, percent_column. rewrite !has_char_append.
  cbn. now rewrite !orb_true_r.
Qed.

(** C5, as the code has it: a report that is produced is the layout
    [report_layout].  Every region below the top level has the row of the
    specification after its indent: name in 30 columns, [total_time] and
    the average as [%15.2e], [n_calls] as [%15d], the percentage as
    [%15.1f] and a percent sign.  The row of a top-level region ends
    after the average: it has no percentage column. *)
Theorem C5_report_layout (self : HT.t) (s : string) :
  HT.__str__ self = ok s -> s = report_layout self.
Proof.
  rewrite str_result. destruct (report_defined self); [|discriminate].
  now intros [= <-].
Qed.

(** C5 at [start("a"); start("b"); stop("b"); stop("a")], with [a] open
    for 2.5 seconds and [b] for 1. *)
Lemma C5_witness :
  ljust 30 "a" ++ rjust 15 "2.50e+00" ++ rjust 15 "1" ++ rjust 15 "2.50e+00"
  ++ nl
  ++ "    " ++ ljust 30 "b" ++ rjust 15 "1.00e+00" ++ rjust 15 "1"
  ++ rjust 15 "1.00e+00" ++ rjust 15 "40.0" ++ "%" ++ nl
  ++ "    " ++ ljust 30 "other" ++ rjust 15 "1.50e+00" ++ rjust 15 "N/A"
  ++ rjust 15 "N/A" ++ rjust 15 "60.0" ++ "%" ++ nl
  = report_layout closed_a_b.
Proof.
  apply (C5_report_layout closed_a_b). reflexivity.
Defined.

(** C5 fails as stated: the report of [start("a"); stop("a")] is the one
    row of the top-level region [a], and that row is not the row of the
    specification, whatever the indent and the parent's total: it has no
    percentage. *)
Lemma C5_top_row_has_no_percentage :
  HT.__str__ closed_a =
    ok (ljust 30 "a" ++ rjust 15 "1.00e+00" ++ rjust 15 "1"
        ++ rjust 15 "1.00e+00" ++ nl)
  /\ forall s, HT.__str__ closed_a = ok s ->
       forall indent total name timer,
         s <> indent ++ spec_row total name timer.
Proof.
  split; [reflexivity|].
  intros s Hs indent total name timer E.
  assert (Hp : has_char "%" s = true).
  { rewrite E, has_char_append, spec_row_has_percent. apply orb_true_r. }
  revert Hp. injection Hs as <-. discriminate.
Qed.

(** ** Assignments through a reference *)

Lemma node_at_empty (path : list string) : node_at path [] = None.
Proof. now destruct path. Qed.

Lemma node_at_snoc (path : list string) (k : string) :
  forall d dd,
    descend path d = ok dd -> node_at (path ++ [k]) d = dict_get k dd.
Proof.
  induction path as [|i path IH]; intros d dd Hd.
  - injection Hd as <-. cbn. now destruct (dict_get k d).
  - cbn in Hd. unfold dict_item in Hd. cbn [app node_at].
    destruct (dict_get i d) as [tmp|]; [|discriminate].
    cbn in Hd. rewrite <- (IH _ _ Hd).
    now destruct path.
Qed.

Lemma modify_at_target (f : dict H.t -> result (dict H.t))
    (path : list string) :
  forall d d',
    modify_at path f d = ok d' ->
    exists dd dd', descend path d = ok dd /\ f dd = ok dd'
                   /\ descend path d' = ok dd'.
Proof.
  induction path as [|i path IH]; intros d d' Hm.
  - exists d, d'. cbn in *. auto.
  - cbn in Hm. unfold dict_item in Hm. cbn [descend]. unfold dict_item.
    destruct (dict_get i d) as [tmp|]; [|discriminate].
    cbn in Hm. destruct (modify_at path f (H.timers tmp)) as [sub|] eqn:Hs;
      [|discriminate].
    injection Hm as <-. destruct (IH _ _ Hs) as (dd & dd' & H1 & H2 & H3).
    exists dd, dd'. rewrite dict_get_set_same. cbn. auto.
Qed.

Lemma modify_at_succeeds (f : dict H.t -> result (dict H.t))
    (path : list string) :
  forall d dd dd',
    descend path d = ok dd -> f dd = ok dd' ->
    exists d', modify_at path f d = ok d'.
Proof.
  induction path as [|i path IH]; intros d dd dd' Hd Hf.
  - injection Hd as <-. exists dd'. exact Hf.
  - cbn in Hd. cbn [modify_at]. unfold dict_item in *.
    destruct (dict_get i d) as [tmp|]; [|discriminate].
    cbn in Hd. destruct (IH _ _ _ Hd Hf) as [sub Hs].
    cbn. rewrite Hs. cbn. eauto.
Qed.

Lemma modify_at_frame (f : dict H.t -> result (dict H.t)) (k : string)
    (path : list string) :
  forall d d',
    modify_at path f d = ok d' ->
    (forall dd dd', descend path d = ok dd -> f dd = ok dd' ->
                    local_change k dd dd') ->
    frame (path ++ [k]) d d'.
Proof.
  induction path as [|i path IH]; intros d d' Hm Hf q Hq.
  - cbn in Hm. cbn in Hq. now rewrite (Hf d d' eq_refl Hm q Hq).
  - cbn in Hm. unfold dict_item in Hm.
    destruct (dict_get i d) as [tmp|] eqn:Hi; [|discriminate].
    cbn in Hm. destruct (modify_at path f (H.timers tmp)) as [sub|] eqn:Hs;
      [|discriminate].
    injection Hm as <-.
    destruct q as [|j q]; [reflexivity|].
    cbn [node_at].
    destruct (string_dec j i) as [->|Hne].
    + rewrite dict_get_set_same, Hi.
      destruct q as [|j' q]; [reflexivity|].
      cbn [H.timers]. apply (IH _ _ Hs).
      * intros dd dd' Hd. apply Hf. cbn. unfold dict_item. now rewrite Hi.
      * intros E. apply Hq. cbn. now rewrite E.
    + now rewrite dict_get_set_other.
Qed.

(** Assigning a new accumulator under a key that is not in the dict. *)
Lemma local_change_create (k : string) (dd : dict H.t) (h : H.t) :
  dict_get k dd = None -> H.timers h = [] ->
  local_change k dd (dict_set k h dd).
Proof.
  intros Hk Hh [|j q] Hq; [reflexivity|]. cbn [node_at].
  destruct (string_dec j k) as [->|Hne].
  - rewrite dict_get_set_same, Hk.
    destruct q as [|j' q]; [congruence|].
    rewrite Hh. apply node_at_empty.
  - now rewrite dict_get_set_other.
Qed.

(** Assigning to the counters of the accumulator under a key. *)
Lemma local_change_update (k : string) (dd : dict H.t) (h h' : H.t) :
  dict_get k dd = Some h -> H.timers h' = H.timers h ->
  local_change k dd (dict_set k h' dd).
Proof.
  intros Hk Hh [|j q] Hq; [reflexivity|]. cbn [node_at].
  destruct (string_dec j k) as [->|Hne].
  - rewrite dict_get_set_same, Hk.
    destruct q as [|j' q]; [congruence|].
    now rewrite Hh.
  - now rewrite dict_get_set_other.
Qed.

Lemma frame_refl (target : list string) (d : dict H.t) : frame target d d.
Proof. now intros q _. Qed.

Lemma frame_trans (target : list string) (d1 d2 d3 : dict H.t) :
  frame target d1 d2 -> frame target d2 d3 -> frame target d1 d3.
Proof.
  intros H12 H23 q Hq. now rewrite (H23 q Hq), (H12 q Hq).
Qed.

Lemma modify_at_raises (f : dict H.t -> result (dict H.t))
    (path : list string) :
  forall d dd e,
    descend path d = ok dd -> f dd = raise e ->
    modify_at path f d = raise e.
Proof.
  induction path as [|i path IH]; intros d dd e Hd Hf.
  - injection Hd as <-. exact Hf.
  - cbn in Hd. cbn [modify_at]. unfold dict_item in *.
    destruct (dict_get i d) as [tmp|]; [|discriminate].
    cbn in Hd. cbn. now rewrite (IH _ _ _ Hd Hf).
Qed.

(** A method that raises, called through a reference, leaves the timer
    as it was. *)
Lemma call_raises (path : list string) (name : string)
    (m : H.t -> result H.t) (self : HT.t) (dd : dict H.t) (h : H.t)
    (e : exn) :
  descend path (HT.timers self) = ok dd ->
  dict_get name dd = Some h ->
  m h = raise e ->
  HT.call (path, name) m self = (self, raise e).
Proof.
  intros Hd Hk Hm. unfold HT.call, HT.assign_timers.
  erewrite modify_at_raises; [reflexivity | exact Hd |].
  unfold dict_item. rewrite Hk. cbn. now rewrite Hm.
Qed.

(** A method that returns, called through a reference, assigns to the
    accumulator the reference points to, and to no other. *)
Lemma call_returns (path : list string) (name : string)
    (m : H.t -> result H.t) (self : HT.t) (dd : dict H.t) (h h' : H.t) :
  descend path (HT.timers self) = ok dd ->
  dict_get name dd = Some h ->
  m h = ok h' ->
  H.timers h' = H.timers h ->
  exists d',
    HT.call (path, name) m self
    = ({| HT.stack := HT.stack self; HT.timers := d' |}, ok tt)
    /\ node_at (path ++ [name]) d' = Some h'
    /\ frame (path ++ [name]) (HT.timers self) d'.
Proof.
  intros Hd Hk Hm Ht. unfold HT.call, HT.assign_timers.
  set (f := fun d : dict H.t =>
              do h0 <- dict_item name d;
              do h1 <- m h0; ok (dict_set name h1 d)).
  assert (Hf : f dd = ok (dict_set name h' dd)).
  { unfold f, dict_item. rewrite Hk. cbn. now rewrite Hm. }
  destruct (modify_at_succeeds f path _ _ _ Hd Hf) as [d' Hd'].
  exists d'. rewrite Hd'. split; [reflexivity|].
  destruct (modify_at_target f path _ _ Hd') as (dd0 & dd1 & H0 & H1 & H2).
  rewrite Hd in H0. injection H0 as <-. rewrite Hf in H1.
  injection H1 as <-. split.
  - rewrite (node_at_snoc path name _ _ H2). apply dict_get_set_same.
  - apply (modify_at_frame f name path _ _ Hd').
    intros dd0 dd1 H0 H1. rewrite Hd in H0. injection H0 as <-.
    rewrite Hf in H1. injection H1 as <-.
    now apply (local_change_update name dd h h').
Qed.

(** [_get_timer] without [should_exist]: the walk along the stack fails,
    or the accumulator is there, or it is created with all counters at
    their initial values. *)
Lemma get_timer_creates (name : string) (self : HT.t) :
  match descend (HT.stack self) (HT.timers self) with
  | inr e => HT._get_timer name false self = (self, raise e)
  | inl dd =>
      match dict_get name dd with
      | Some _ =>
          HT._get_timer name false self = (self, ok (HT.stack self, name))
      | None =>
          exists d',
            HT._get_timer name false self
            = ({| HT.stack := HT.stack self; HT.timers := d' |},
               ok (HT.stack self, name))
            /\ descend (HT.stack self) d' = ok (dict_set name H.__init__ dd)
            /\ frame (HT.stack self ++ [name]) (HT.timers self) d'
      end
  end.
Proof.
  unfold HT._get_timer, dict_mem.
  destruct (descend (HT.stack self) (HT.timers self)) as [dd|e] eqn:Hd;
    [|reflexivity].
  destruct (dict_get name dd) as [h|] eqn:Hk; [reflexivity|].
  unfold HT.seq, HT.assign_timers, HT.ret.
  set (f := fun d : dict H.t => ok (dict_set name H.__init__ d)).
  destruct (modify_at_succeeds f _ _ _ _ Hd eq_refl) as [d' Hd'].
  exists d'. rewrite Hd'. split; [reflexivity|].
  destruct (modify_at_target f _ _ _ Hd') as (dd0 & dd1 & H0 & H1 & H2).
  rewrite Hd in H0. injection H0 as <-. injection H1 as <-.
  split; [exact H2|].
  apply (modify_at_frame f name _ _ _ Hd').
  intros dd0 dd1 H0 H1. rewrite Hd in H0. injection H0 as <-.
  injection H1 as <-. now apply local_change_create.
Qed.

(** [_get_timer] with [should_exist]: it assigns to nothing. *)
Lemma get_timer_existing (name : string) (self : HT.t) :
  HT._get_timer name true self =
    match descend (HT.stack self) (HT.timers self) with
    | inr e => (self, raise e)
    | inl dd =>
        match dict_get name dd with
        | Some _ => (self, ok (HT.stack self, name))
        | None => (self, raise RuntimeError)
        end
    end.
Proof.
  unfold HT._get_timer, dict_mem.
  destruct (descend (HT.stack self) (HT.timers self)) as [dd|e];
    [|reflexivity].
  now destruct (dict_get name dd).
Qed.

(** ** What a call does to the timer *)

Lemma start_effect (now : Q) (name : string) (self : HT.t) :
  (exists e,
      HT.start_increment now name self = (self, raise e)
      /\ invoked (Start name) self = None)
  \/ (exists d' after,
        HT.start_increment now name self
        = ({| HT.stack := HT.stack self ++ [name]; HT.timers := d' |}, ok tt)
        /\ invoked (Start name) self
           = Some ((HT.stack self ++ [name])%list, StartIncrement)
        /\ node_at (HT.stack self ++ [name]) d' = Some after
        /\ incremented now StartIncrement
             (node_at (HT.stack self ++ [name]) (HT.timers self)) after
        /\ frame (HT.stack self ++ [name]) (HT.timers self) d').
Proof.
  pose proof (get_timer_creates name self) as Hg.
  unfold invoked, HT.start_increment, HT.seq.
  destruct (descend (HT.stack self) (HT.timers self)) as [dd|e] eqn:Hd.
  - right. rewrite (node_at_snoc _ name _ _ Hd).
    destruct (dict_get name dd) as [h|] eqn:Hk.
    + rewrite Hg. cbn [fst snd ok path_of].
      destruct (call_returns (HT.stack self) name
                  (fun h => ok (H.start_increment now h)) self dd h
                  (H.start_increment now h) Hd Hk eq_refl eq_refl)
        as (d' & Hc & Hn & Hf).
      exists d', (H.start_increment now h).
      rewrite Hc. cbn. auto.
    + destruct Hg as (d1 & Hg & Hd1 & Hf1). rewrite Hg.
      cbn [fst snd ok path_of].
      destruct (call_returns (HT.stack self) name
                  (fun h => ok (H.start_increment now h))
                  {| HT.stack := HT.stack self; HT.timers := d1 |}
                  (dict_set name H.__init__ dd) H.__init__
                  (H.start_increment now H.__init__) Hd1
                  (dict_get_set_same _ _ _) eq_refl eq_refl)
        as (d' & Hc & Hn & Hf).
      exists d', (H.start_increment now H.__init__).
      rewrite Hc. cbn.
      repeat split; auto. now apply (frame_trans _ _ d1).
  - left. exists e. rewrite Hg. auto.
Qed.

Lemma invoked_stop (name : string) (self : HT.t) (rest : list string) :
  HT.stack self = (rest ++ [name])%list ->
  invoked (Stop name) self =
    match
      snd (HT._get_timer name true
             {| HT.stack := rest; HT.timers := HT.timers self |})
    with
    | inl timer => Some (path_of timer, StopIncrement)
    | inr _ => None
    end.
Proof.
  intros Hp. unfold invoked, HT.seq, HT.stack_pop.
  rewrite Hp, list_pop_snoc. unfold ok at 1. cbv iota.
  rewrite String.eqb_refl. reflexivity.
Qed.

Lemma stop_effect (now : Q) (name : string) (self : HT.t) :
  (exists e self',
      HT.stop_increment now name self = (self', raise e)
      /\ HT.timers self' = HT.timers self)
  \/ (exists rest d' after,
        HT.stack self = (rest ++ [name])%list
        /\ HT.stop_increment now name self
           = ({| HT.stack := rest; HT.timers := d' |}, ok tt)
        /\ invoked (Stop name) self
           = Some ((rest ++ [name])%list, StopIncrement)
        /\ node_at (rest ++ [name]) d' = Some after
        /\ incremented now StopIncrement
             (node_at (rest ++ [name]) (HT.timers self)) after
        /\ frame (rest ++ [name]) (HT.timers self) d').
Proof.
  destruct (list_pop (HT.stack self)) as [[rest top]|] eqn:Hp.
  2:{ left. exists IndexError, self.
      now rewrite (stop_increment_empty _ _ _ (list_pop_none _ Hp)). }
  apply list_pop_some in Hp.
  destruct (string_dec name top) as [<-|Hne].
  2:{ left. eexists _, _.
      now rewrite (stop_increment_mismatch _ _ _ _ _ Hp Hne). }
  rewrite (stop_increment_match _ _ _ _ Hp), (invoked_stop _ _ _ Hp).
  set (self0 := {| HT.stack := rest; HT.timers := HT.timers self |}).
  unfold HT.seq. rewrite (get_timer_existing name self0).
  cbn [HT.stack HT.timers self0].
  destruct (descend rest (HT.timers self)) as [dd|e] eqn:Hd.
  2:{ left. now exists e, self0. }
  destruct (dict_get name dd) as [h|] eqn:Hk.
  2:{ left. now exists RuntimeError, self0. }
  cbn [fst snd path_of ok].
  destruct (H.t0 h) as [start|] eqn:Ht.
  - right.
    destruct (call_returns rest name (H.stop_increment now) self0 dd h
                {| H.total_time := H.total_time h + (now - start);
                   H.t0 := H.t0 h;
                   H.n_calls := H.n_calls h + 1;
                   H.timers := H.timers h |} Hd Hk)
      as (d' & Hc & Hn & Hf).
    { unfold H.stop_increment. now rewrite Ht. }
    { reflexivity. }
    exists rest, d'. eexists. rewrite Hc.
    repeat split; [exact Hp | exact Hn | | exact Hf].
    exists h, start. rewrite (node_at_snoc _ name _ _ Hd).
    repeat split; auto. unfold counters. cbn. now rewrite Ht.
  - left. exists TypeError, self0.
    rewrite (call_raises rest name (H.stop_increment now) self0 dd h
               TypeError Hd Hk); [auto|].
    unfold H.stop_increment. now rewrite Ht.
Qed.

(** One call either leaves the tree as it is, or returns normally after
    the one increment it invokes, which assigns to the counters of the
    accumulator it is invoked on and of no other. *)
Lemma step_effect (now : Q) (c : call) (self : HT.t) :
  HT.timers (fst (step now c self)) = HT.timers self
  \/ (exists target m after,
        invoked c self = Some (target, m)
        /\ snd (step now c self) = None
        /\ node_at target (HT.timers (fst (step now c self))) = Some after
        /\ incremented now m (node_at target (HT.timers self)) after
        /\ frame target (HT.timers self) (HT.timers (fst (step now c self)))).
Proof.
  destruct c as [name|name|]; cbn [step fst snd].
  - destruct (start_effect now name self)
      as [(e & He & _)|(d' & after & He & Hi & Hn & Hinc & Hf)];
      rewrite He; cbn [fst snd raised ok]; [now left|].
    right. exists (HT.stack self ++ [name])%list, StartIncrement, after. auto.
  - destruct (stop_effect now name self)
      as [(e & self' & He & Ht)|(rest & d' & after & Hs & He & Hi & Hn & Hinc & Hf)];
      rewrite He; cbn [fst snd raised ok]; [now left|].
    right. exists (rest ++ [name])%list, StopIncrement, after. auto.
  - now left.
Qed.

(** The accumulator a call reaches is the one at the path that the stack
    and the name make. *)
Lemma invoked_target (c : call) (self : HT.t) (target : list string)
    (m : increment) :
  invoked c self = Some (target, m) ->
  match c with
  | Start name =>
      target = (HT.stack self ++ [name])%list /\ m = StartIncrement
  | Stop name =>
      target = HT.stack self /\ m = StopIncrement
      /\ exists rest, HT.stack self = (rest ++ [name])%list
  | Report => False
  end.
Proof.
  destruct c as [name|name|]; [| |discriminate].
  - unfold invoked. pose proof (get_timer_creates name self) as Hg.
    destruct (descend (HT.stack self) (HT.timers self)) as [dd|e].
    + destruct (dict_get name dd).
      * rewrite Hg. cbn. now intros [= <- <-].
      * destruct Hg as (d' & -> & _). cbn. now intros [= <- <-].
    + rewrite Hg. discriminate.
  - destruct (list_pop (HT.stack self)) as [[rest top]|] eqn:Hp.
    + apply list_pop_some in Hp.
      destruct (string_dec name top) as [<-|Hne].
      * rewrite (invoked_stop _ _ _ Hp), get_timer_existing. cbn.
        destruct (descend rest (HT.timers self)) as [dd|e]; [|discriminate].
        destruct (dict_get name dd); [|discriminate].
        cbn. intros [= <- <-]. rewrite Hp. eauto.
      * unfold invoked, HT.seq, HT.stack_pop.
        rewrite Hp, list_pop_snoc. unfold ok at 1. cbv iota.
        destruct (String.eqb_spec name top); [contradiction|discriminate].
    + unfold invoked, HT.seq, HT.stack_pop. rewrite Hp. discriminate.
Qed.

Lemma step_frame (now : Q) (c : call) (self : HT.t) (target : list string)
    (m : increment) :
  invoked c self = Some (target, m) ->
  frame target (HT.timers self) (HT.timers (fst (step now c self))).
Proof.
  intros Hi.
  destruct (step_effect now c self)
    as [->|(target' & m' & after & Hi' & _ & _ & _ & Hf)].
  - apply frame_refl.
  - rewrite Hi in Hi'. now injection Hi' as -> _.
Qed.

(** C4: the calls [start("a"); start("b"); start("a"); stop("a");
    stop("b"); stop("a")] all return and leave two accumulators named
    [a], one at the root and one below [b], each with [n_calls = 1].  In
    general a call reaches the accumulator at the path made of the stack
    and the name, and the counters of the accumulators at all other
    paths, the same name at another path among them, stay as they are. *)
Theorem C4_one_accumulator_per_path :
  (forall c1 c2 c3 c4 c5 c6 : Q,
      let final := run (recursive_calls c1 c2 c3 c4 c5 c6) HT.__init__ in
      error_free (recursive_calls c1 c2 c3 c4 c5 c6) HT.__init__ = true
      /\ option_map counters (node_at ["a"] (HT.timers final))
         = Some (0 + (c6 - c1), Some c1, 1%Z)
      /\ option_map counters (node_at ["a"; "b"; "a"] (HT.timers final))
         = Some (0 + (c4 - c3), Some c3, 1%Z)
      /\ option_map counters (node_at ["a"; "b"] (HT.timers final))
         = Some (0 + (c5 - c2), Some c2, 1%Z))
  /\ (forall (now : Q) (c : call) (self : HT.t) (target : list string)
             (m : increment),
        invoked c self = Some (target, m) ->
        match c with
        | Start name => target = (HT.stack self ++ [name])%list
        | Stop name => target = HT.stack self
        | Report => False
        end
        /\ frame target (HT.timers self) (HT.timers (fst (step now c self)))).
Proof.
  split.
  - intros c1 c2 c3 c4 c5 c6 final. subst final.
    destruct (recursive_calls_run c1 c2 c3 c4 c5 c6) as [-> ->].
    repeat split.
  - intros now c self target m Hi. split.
    + pose proof (invoked_target c self target m Hi) as Ht.
      destruct c; [apply Ht | apply Ht | exact Ht].
    + now apply (step_frame now c self target m).
Qed.

(** C4 at the third call of the scenario: [start("a")] with [a] and [b]
    open reaches the accumulator at [a/b/a] and leaves the counters of
    the root [a] as they are. *)
Lemma C4_witness :
  ["a"; "b"; "a"] = (HT.stack open_a_b ++ ["a"])%list
  /\ option_map counters
       (node_at ["a"] (HT.timers (fst (step 3 (Start "a") open_a_b))))
     = option_map counters (node_at ["a"] (HT.timers open_a_b)).
Proof.
  destruct (proj2 C4_one_accumulator_per_path 3 (Start "a") open_a_b
              ["a"; "b"; "a"] StartIncrement eq_refl) as [Ht Hf].
  split; [exact Ht|]. apply Hf. discriminate.
Defined.

(** ** The counters over a run *)

Lemma Qle_bool_true (x y : Q) : Qle_bool x y = true -> x <= y.
Proof. apply Qle_bool_iff. Qed.

Lemma counters_eq (h h' : H.t) :
  counters h' = counters h ->
  H.total_time h' = H.total_time h /\ H.t0 h' = H.t0 h
  /\ H.n_calls h' = H.n_calls h.
Proof. unfold counters. now intros [= -> -> ->]. Qed.

Lemma frame_node (target path : list string) (d d' : dict H.t) (h : H.t) :
  frame target d d' -> path <> target -> node_at path d = Some h ->
  exists h', node_at path d' = Some h' /\ counters h' = counters h.
Proof.
  intros Hf Hp Hn. specialize (Hf path Hp). rewrite Hn in Hf.
  destruct (node_at path d') as [h'|]; [|discriminate].
  exists h'. split; [reflexivity|]. cbn [option_map] in Hf. congruence.
Qed.

Lemma frame_node_back (target path : list string) (d d' : dict H.t)
    (h' : H.t) :
  frame target d d' -> path <> target -> node_at path d' = Some h' ->
  exists h, node_at path d = Some h /\ counters h' = counters h.
Proof.
  intros Hf Hp Hn. specialize (Hf path Hp). rewrite Hn in Hf.
  destruct (node_at path d) as [h|]; [|discriminate].
  exists h. split; [reflexivity|]. cbn [option_map] in Hf. congruence.
Qed.

Lemma tree_inv_later (lo now : Q) (d : dict H.t) :
  lo <= now -> tree_inv lo d -> tree_inv now d.
Proof.
  intros Hle Hinv path h Hn. destruct (Hinv path h Hn) as (Ht & Hc & Hs).
  repeat split; auto. intros start E. specialize (Hs start E). lra.
Qed.

(** A call made when the clock has not gone back keeps the invariant. *)
Lemma step_inv (lo now : Q) (c : call) (self : HT.t) :
  lo <= now -> tree_inv lo (HT.timers self) ->
  tree_inv now (HT.timers (fst (step now c self))).
Proof.
  intros Hle Hinv.
  destruct (step_effect now c self)
    as [->|(target & m & after & _ & _ & Hn & Hinc & Hf)].
  { now apply (tree_inv_later lo). }
  intros path h' Hp.
  destruct (list_eq_dec string_dec path target) as [->|Hne].
  - rewrite Hn in Hp. injection Hp as <-. destruct m; cbn in Hinc.
    + destruct (node_at target (HT.timers self)) as [h|] eqn:Hb.
      * destruct (Hinv _ _ Hb) as (Ht & Hc & _).
        injection Hinc as -> -> ->. repeat split; auto.
        intros start [= <-]. lra.
      * injection Hinc as -> -> ->. repeat split; [lra | lia |].
        intros start [= <-]. lra.
    + destruct Hinc as (h & start & Hb & Hs & Hinc).
      destruct (Hinv _ _ Hb) as (Ht & Hc & Hstart).
      specialize (Hstart start Hs).
      injection Hinc as -> -> ->. repeat split; [lra | lia |].
      intros start' [= <-]. lra.
  - destruct (frame_node_back _ _ _ _ _ Hf Hne Hp) as (h & Hb & Hc).
    destruct (counters_eq _ _ Hc) as (-> & -> & ->).
    now apply (tree_inv_later lo now _ Hle Hinv path h).
Qed.

(** A call made when the clock has not gone back lets no counter
    decrease. *)
Lemma step_monotone (lo now : Q) (c : call) (self : HT.t)
    (path : list string) (h : H.t) :
  lo <= now -> tree_inv lo (HT.timers self) ->
  node_at path (HT.timers self) = Some h ->
  exists h',
    node_at path (HT.timers (fst (step now c self))) = Some h'
    /\ H.total_time h <= H.total_time h'
    /\ (H.n_calls h <= H.n_calls h')%Z.
Proof.
  intros Hle Hinv Hp.
  destruct (step_effect now c self)
    as [->|(target & m & after & _ & _ & Hn & Hinc & Hf)].
  { exists h. repeat split; [exact Hp | lra | lia]. }
  destruct (list_eq_dec string_dec path target) as [->|Hne].
  - exists after. split; [exact Hn|]. rewrite Hp in Hinc.
    destruct m; cbn in Hinc.
    + injection Hinc as -> _ ->. split; [lra | lia].
    + destruct Hinc as (h0 & start & [= <-] & Hs & Hinc).
      destruct (Hinv _ _ Hp) as (_ & _ & Hstart).
      specialize (Hstart start Hs).
      injection Hinc as -> _ ->. split; [lra | lia].
  - destruct (frame_node _ _ _ _ _ Hf Hne Hp) as (h' & Hb & Hc).
    destruct (counters_eq _ _ Hc) as (Ht & _ & Hcalls).
    exists h'. rewrite Ht, Hcalls. repeat split; [exact Hb | lra | lia].
Qed.

Lemma tree_inv_init (now : Q) : tree_inv now (HT.timers HT.__init__).
Proof. intros path h Hn. now rewrite node_at_empty in Hn. Qed.

(** The invariant holds along a run whose clock never goes back; the
    clock of the call after the run is not before the reading the
    invariant holds for. *)
Lemma run_inv (calls : list (Q * call)) :
  forall (self : HT.t) (lo now : Q) (c : call),
    tree_inv lo (HT.timers self) ->
    readings_from lo (calls ++ [(now, c)]) = true ->
    exists last,
      last <= now /\ tree_inv last (HT.timers (run calls self)).
Proof.
  induction calls as [|[now1 c1] calls IH]; intros self lo now c Hinv Hr.
  - cbn in Hr. rewrite andb_true_r in Hr. apply Qle_bool_true in Hr.
    exists lo. now split.
  - cbn [app readings_from] in Hr. apply andb_prop in Hr.
    destruct Hr as [Hle Hr]. apply Qle_bool_true in Hle.
    cbn [run]. apply (IH _ now1 now c); [|exact Hr].
    now apply (step_inv lo).
Qed.

Lemma run_inv_init (calls : list (Q * call)) (now : Q) (c : call) :
  monotone_clock (calls ++ [(now, c)]) = true ->
  exists last,
    last <= now /\ tree_inv last (HT.timers (run calls HT.__init__)).
Proof.
  destruct calls as [|[now1 c1] calls]; intros Hm.
  - exists now. split; [lra | apply tree_inv_init].
  - cbn [app monotone_clock] in Hm. cbn [run].
    apply (run_inv calls _ now1 now c); [|exact Hm].
    apply (step_inv now1); [lra | apply tree_inv_init].
Qed.

(** C8: along a run of [start], [stop] and report calls whose clock
    readings never decrease, [total_time] and [n_calls] of every
    accumulator are at least 0, and no call makes either smaller. *)
Theorem C8_counters_never_decrease (calls : list (Q * call)) (now : Q)
    (c : call) (path : list string) (h : H.t) :
  monotone_clock (calls ++ [(now, c)]) = true ->
  node_at path (HT.timers (run calls HT.__init__)) = Some h ->
  0 <= H.total_time h /\ (0 <= H.n_calls h)%Z
  /\ exists h',
       node_at path (HT.timers (fst (step now c (run calls HT.__init__))))
       = Some h'
       /\ H.total_time h <= H.total_time h'
       /\ (H.n_calls h <= H.n_calls h')%Z
       /\ 0 <= H.total_time h' /\ (0 <= H.n_calls h')%Z.
Proof.
  intros Hm Hn. destruct (run_inv_init calls now c Hm) as (last & Hle & Hinv).
  destruct (Hinv path h Hn) as (Ht & Hc & _).
  split; [exact Ht|]. split; [exact Hc|].
  destruct (step_monotone last now c _ path h Hle Hinv Hn)
    as (h' & Hn' & Ht' & Hc').
  exists h'. repeat split; auto; [lra | lia].
Qed.

(** C8 at [start("a"); start("b"); stop("b")] followed by [stop("a")]:
    the counters of [a], 0 and 0 before the call, are not smaller after
    it. *)
Lemma C8_witness :
  exists h',
    node_at ["a"] (HT.timers closed_a_b) = Some h'
    /\ 0 <= H.total_time h' /\ (0 <= H.n_calls h')%Z.
Proof.
  destruct (C8_counters_never_decrease
              [(1, Start "a"); (2, Start "b"); (3, Stop "b")]
              (7 # 2) (Stop "a") ["a"]
              {| H.total_time := 0; H.t0 := Some 1; H.n_calls := 0;
                 H.timers :=
                   [("b", {| H.total_time := 0 + (3 - 2); H.t0 := Some 2;
                             H.n_calls := 1; H.timers := [] |})] |}
              eq_refl eq_refl)
    as (_ & _ & h' & Hn & Ht & Hc & _).
  exists h'. split; [exact Hn|]. split; [exact Ht | exact Hc].
Defined.

(** ** Idle and running *)

Lemma prefixb_refl (path : list string) : prefixb path path = true.
Proof.
  induction path as [|i path IH]; [reflexivity|].
  cbn. now rewrite String.eqb_refl.
Qed.

Lemma prefixb_longer (stack : list string) (name : string) :
  prefixb (stack ++ [name]) stack = false.
Proof.
  induction stack as [|i stack IH]; [reflexivity|].
  cbn. now rewrite IH, andb_false_r.
Qed.

Lemma prefixb_snoc (path : list string) :
  forall (stack : list string) (name : string),
    path <> (stack ++ [name])%list ->
    prefixb path (stack ++ [name]) = prefixb path stack.
Proof.
  induction path as [|i path IH]; intros stack name Hne; [reflexivity|].
  destruct stack as [|j stack]; cbn.
  - destruct (String.eqb_spec i name) as [->|_]; [|reflexivity].
    destruct path as [|i' path]; [now contradiction Hne | reflexivity].
  - destruct (String.eqb_spec i j) as [->|_]; [|reflexivity].
    cbn. apply IH. intros E. apply Hne. cbn. now rewrite E.
Qed.

Lemma is_open_top (stack : list string) (name : string) :
  is_open (stack ++ [name]) (stack ++ [name]) = true
  /\ is_open (stack ++ [name]) stack = false.
Proof.
  unfold is_open. destruct (stack ++ [name])%list eqn:E.
  - now destruct stack.
  - rewrite <- E. split; [apply prefixb_refl | apply prefixb_longer].
Qed.

Lemma is_open_snoc (path stack : list string) (name : string) :
  path <> (stack ++ [name])%list ->
  is_open path (stack ++ [name]) = is_open path stack.
Proof.
  intros Hne. unfold is_open. destruct path; [reflexivity|].
  now apply prefixb_snoc.
Qed.

(** A call that returns pushes its name after a [start_increment] on the
    accumulator at the new stack, or pops it after a [stop_increment] on
    the accumulator at the old stack. *)
Lemma step_returns (now : Q) (c : call) (self : HT.t) :
  snd (step now c self) = None ->
  match c with
  | Start name =>
      HT.stack (fst (step now c self)) = (HT.stack self ++ [name])%list
      /\ invoked c self
         = Some ((HT.stack self ++ [name])%list, StartIncrement)
  | Stop name =>
      HT.stack self = (HT.stack (fst (step now c self)) ++ [name])%list
      /\ invoked c self = Some (HT.stack self, StopIncrement)
  | Report => fst (step now c self) = self /\ invoked c self = None
  end.
Proof.
  destruct c as [name|name|]; cbn [step fst snd].
  - destruct (start_effect now name self)
      as [(e & He & _)|(d' & after & He & Hi & _)];
      rewrite He; cbn; [discriminate | auto].
  - destruct (stop_effect now name self)
      as [(e & self' & He & _)|(rest & d' & after & Hs & He & Hi & _)];
      rewrite He; cbn; [discriminate|].
    rewrite Hs. auto.
  - auto.
Qed.

Lemma increments_on_cons (path : list string)
    (i : list string * increment) (log : list (list string * increment)) :
  increments_on path (i :: log) =
    if list_eq_dec string_dec (fst i) path
    then snd i :: increments_on path log
    else increments_on path log.
Proof.
  unfold increments_on. cbn [filter].
  now destruct (list_eq_dec string_dec (fst i) path).
Qed.

(** In a run without errors, started with the regions of the stack
    running and all others idle, the increments alternate on every
    accumulator. *)
Lemma alternates_from (calls : list (Q * call)) :
  forall (self : HT.t) (path : list string),
    error_free calls self = true ->
    alternates (is_open path (HT.stack self))
               (increments_on path (invocations calls self)) = true.
Proof.
  induction calls as [|[now c] calls IH]; intros self path He;
    [reflexivity|].
  cbn [error_free] in He. cbn [invocations].
  destruct (snd (step now c self)) eqn:Hs; [discriminate|].
  pose proof (step_returns now c self Hs) as Hr.
  specialize (IH _ path He).
  destruct c as [name|name|].
  - destruct Hr as [Hstack ->]. rewrite Hstack in IH.
    cbn [app]. rewrite increments_on_cons. cbn [fst snd].
    destruct (list_eq_dec string_dec (HT.stack self ++ [name]) path)
      as [<-|Hne].
    + cbn [alternates].
      destruct (is_open_top (HT.stack self) name) as [Ho ->].
      now rewrite Ho in IH.
    + rewrite is_open_snoc in IH; [exact IH | congruence].
  - destruct Hr as [Hstack ->].
    set (rest := HT.stack (fst (step now (Stop name) self))) in *.
    rewrite Hstack. cbn [app]. rewrite increments_on_cons. cbn [fst snd].
    destruct (list_eq_dec string_dec (rest ++ [name]) path) as [<-|Hne].
    + cbn [alternates].
      destruct (is_open_top rest name) as [-> Ho].
      now rewrite Ho in IH.
    + rewrite is_open_snoc; [exact IH | congruence].
  - destruct Hr as [-> ->]. exact IH.
Qed.

(** A call that returns does what the log says of it. *)
Lemma step_logged (now : Q) (c : call) (self : HT.t) :
  snd (step now c self) = None -> step_as_logged now c self.
Proof.
  intros Hok. unfold step_as_logged.
  destruct c as [name|name|]; cbn [step fst snd] in *.
  - destruct (start_effect now name self)
      as [(e & He & _)|(d' & after & He & -> & Hn & Hinc & Hf)];
      rewrite He in *; [discriminate|].
    now exists after.
  - destruct (stop_effect now name self)
      as [(e & self' & He & _)|(rest & d' & after & _ & He & -> & Hn & Hinc & Hf)];
      rewrite He in *; [discriminate|].
    now exists after.
  - reflexivity.
Qed.

Lemma run_logged (calls : list (Q * call)) :
  forall self, error_free calls self = true -> run_as_logged calls self.
Proof.
  induction calls as [|[now c] calls IH]; intros self He; [exact I|].
  cbn [error_free] in He. cbn [run_as_logged].
  destruct (snd (step now c self)) eqn:Hok; [discriminate|].
  split; [now apply step_logged | now apply IH].
Qed.

(** C10: in a run of calls none of which raises, every call makes on the
    tree the one increment that the log has for it, on the accumulator
    at the path made of the stack and the name, and touches the counters
    of no other accumulator; and the increments so made on any one
    accumulator alternate, beginning with [start_increment]:
    [start_increment] never reaches an accumulator that is running, and
    [stop_increment] never reaches one that is idle. *)
Theorem C10_increments_alternate (calls : list (Q * call))
    (path : list string) :
  error_free calls HT.__init__ = true ->
  run_as_logged calls HT.__init__
  /\ alternates false (increments_on path (invocations calls HT.__init__))
     = true.
Proof.
  intros He. split; [now apply run_logged|].
  pose proof (alternates_from calls HT.__init__ path He) as Ha.
  unfold is_open in Ha. now destruct path.
Qed.

(** C10 at the recursive-use scenario, for the root accumulator [a]:
    [a] is restarted while it runs, and the restart reaches [a/b/a]. *)
Lemma C10_witness :
  run_as_logged (recursive_calls 1 2 3 4 5 6) HT.__init__
  /\ alternates false
       (increments_on ["a"]
          (invocations (recursive_calls 1 2 3 4 5 6) HT.__init__))
     = true.
Proof.
  apply (C10_increments_alternate (recursive_calls 1 2 3 4 5 6) ["a"]).
  reflexivity.
Defined.

(** ** [TicTocTimer] *)

Lemma later_world_0 (w : TT.world) : later_world w 0 [] = w.
Proof. destruct w. unfold later_world. cbn. now rewrite app_nil_r. Qed.

Lemma deliver_eq (self0 self : TT.t) (msg : string)
    (ostream : option TT.stream) (logger : option nat) (w : TT.world) :
  TT.deliver self0 msg ostream logger (self, w) =
    ((self, later_world w 0 (deliveries self0 msg ostream logger)), ok tt).
Proof.
  unfold TT.deliver, deliveries, later_world.
  destruct (TT.nonempty msg).
  - destruct ostream, (TT._ostream self0), logger, (TT._logger self0);
      cbn; rewrite <- ?app_assoc; reflexivity.
  - cbn. now rewrite app_nil_r; destruct w.
Qed.

(** [toc] once [start()] has been called, while the timer runs: the
    cumulative time and the time since the last start, read from the
    clock a second time. *)
Lemma toc_running (msg : option string) (delta : bool)
    (ostream : option TT.stream) (logger : option nat) (self : TT.t)
    (w : TT.world) (last : Q) :
  TT._start_count self <> 0%Z ->
  TT._lastTime self = Some last -> Qeq_bool last 0 = false ->
  TT.toc msg delta ostream logger (self, w) =
    let ans := TT._cumul self + (TT.reading (TT.tick w) - last) in
    ((self,
      later_world w 2
        (deliveries self
           (TT.cumul_line ans (TT._start_count self) (toc_msg msg w))
           ostream logger)),
     ok ans).
Proof.
  intros Hc Hl Hz. apply Z.eqb_neq in Hc.
  unfold TT.toc, TT.seq. destruct msg as [m|];
    cbn [TT.ret TT._time_source TT.get_self ok];
    rewrite Hc, Hl; cbn [negb orb TT.truthy]; rewrite Hz;
    cbn [negb TT._time_source TT.since TT.ret ok fst snd];
    rewrite deliver_eq; reflexivity.
Qed.

(** [toc] of a stopped timer, or of one that started when the clock read
    zero: the cumulative time. *)
Lemma toc_stopped (msg : option string) (delta : bool)
    (ostream : option TT.stream) (logger : option nat) (self : TT.t)
    (w : TT.world) :
  TT._start_count self <> 0%Z \/ TT._lastTime self = None ->
  TT.truthy (TT._lastTime self) = false ->
  TT.toc msg delta ostream logger (self, w) =
    ((self,
      later_world w 1
        (deliveries self
           (TT.cumul_line (TT._cumul self) (TT._start_count self)
              (toc_msg msg w))
           ostream logger)),
     ok (TT._cumul self)).
Proof.
  intros Hm Ht.
  assert (Hb : negb (TT._start_count self =? 0)%Z
               || match TT._lastTime self with
                  | None => true
                  | Some _ => false
                  end = true).
  { destruct Hm as [Hc|Hl].
    - apply Z.eqb_neq in Hc. now rewrite Hc.
    - rewrite Hl. apply orb_true_r. }
  unfold TT.toc, TT.seq. destruct msg as [m|];
    cbn [TT.ret TT._time_source TT.get_self ok];
    rewrite Hb, Ht; cbn [TT.ret ok fst snd];
    rewrite deliver_eq; reflexivity.
Qed.

(** [toc] before any [start()], with [delta]: the time since the last
    [tic] or [toc], which this [toc] becomes. *)
Lemma toc_delta (msg : option string)
    (ostream : option TT.stream) (logger : option nat) (self : TT.t)
    (w : TT.world) (last : Q) :
  TT._start_count self = 0%Z -> TT._lastTime self = Some last ->
  TT.toc msg true ostream logger (self, w) =
    let ans := TT.reading w - last in
    ((with_lastTime self (Some (TT.reading w)),
      later_world w 1
        (deliveries self (TT.delta_line ans (toc_msg msg w))
           ostream logger)),
     ok ans).
Proof.
  intros Hc Hl. unfold TT.toc, TT.seq. destruct msg as [m|];
    cbn [TT.ret TT._time_source TT.get_self ok];
    rewrite Hc, Hl;
    cbn [Z.eqb negb orb TT.since TT.set_lastTime TT.ret ok fst snd];
    rewrite deliver_eq; reflexivity.
Qed.

(** [toc] before any [start()], without [delta]: the time since the
    timer was made. *)
Lemma toc_since_load (msg : option string)
    (ostream : option TT.stream) (logger : option nat) (self : TT.t)
    (w : TT.world) (last : Q) :
  TT._start_count self = 0%Z -> TT._lastTime self = Some last ->
  TT.toc msg false ostream logger (self, w) =
    let ans := TT.reading w - TT._loadTime self in
    ((self,
      later_world w 1
        (deliveries self (TT.load_line ans (toc_msg msg w))
           ostream logger)),
     ok ans).
Proof.
  intros Hc Hl. unfold TT.toc, TT.seq. destruct msg as [m|];
    cbn [TT.ret TT._time_source TT.get_self ok];
    rewrite Hc, Hl;
    cbn [Z.eqb negb orb TT.ret ok fst snd];
    rewrite deliver_eq; reflexivity.
Qed.

Lemma stop_eq (self : TT.t) (w : TT.world) :
  TT.stop (self, w) =
    match TT._lastTime self with
    | None => ((self, TT.tick w), raise RuntimeError)
    | Some last =>
        (({| TT._lastTime := None; TT._loadTime := TT._loadTime self;
             TT._ostream := TT._ostream self; TT._logger := TT._logger self;
             TT._start_count := TT._start_count self;
             TT._cumul := TT._cumul self + (TT.reading w - last) |},
          TT.tick w),
         ok (TT.reading w - last))
    end.
Proof.
  unfold TT.stop, TT.seq. cbn [TT._time_source TT.get_self ok].
  now destruct (TT._lastTime self).
Qed.

Lemma start_eq (self : TT.t) (w : TT.world) :
  TT.start (self, w) =
    match TT._lastTime self with
    | Some last =>
        if Qeq_bool last 0 then
          (({| TT._lastTime := Some (TT.reading w);
               TT._loadTime := TT._loadTime self;
               TT._ostream := TT._ostream self;
               TT._logger := TT._logger self;
               TT._start_count := TT._start_count self + 1;
               TT._cumul := TT._cumul self |},
            TT.tick w), ok tt)
        else
          (({| TT._lastTime := Some (TT.reading (TT.tick w));
               TT._loadTime := TT._loadTime self;
               TT._ostream := TT._ostream self;
               TT._logger := TT._logger self;
               TT._start_count := TT._start_count self + 1;
               TT._cumul := TT._cumul self + (TT.reading w - last) |},
            TT.tick (TT.tick w)), ok tt)
    | None =>
        (({| TT._lastTime := Some (TT.reading w);
             TT._loadTime := TT._loadTime self;
             TT._ostream := TT._ostream self;
             TT._logger := TT._logger self;
             TT._start_count := TT._start_count self + 1;
             TT._cumul := TT._cumul self |},
          TT.tick w), ok tt)
    end.
Proof.
  unfold TT.start. unfold TT.seq at 1. cbn [TT.get_self ok].
  destruct (TT._lastTime self) as [last|] eqn:Hl; cbn [TT.truthy].
  - destruct (Qeq_bool last 0); cbn [negb].
    + reflexivity.
    + unfold TT.seq at 1 2. rewrite stop_eq, Hl. reflexivity.
  - reflexivity.
Qed.

(** X1.  [stop()] returns the time since [_lastTime] and leaves the
    timer stopped; a [stop()] right after it raises [RuntimeError] and
    assigns to nothing, so the cumulative time is counted once. *)
Theorem X1_stop_after_stop_raises (self : TT.t) (w : TT.world) (last : Q) :
  TT._lastTime self = Some last ->
  exists stopped,
    TT.stop (self, w) = ((stopped, TT.tick w), ok (TT.reading w - last))
    /\ TT._lastTime stopped = None
    /\ TT._cumul stopped = TT._cumul self + (TT.reading w - last)
    /\ TT.stop (stopped, TT.tick w)
       = ((stopped, TT.tick (TT.tick w)), raise RuntimeError).
Proof.
  intros Hl. eexists. rewrite stop_eq, Hl. split; [reflexivity|].
  split; [reflexivity|]. split; [reflexivity|].
  now rewrite stop_eq.
Qed.

(** X1 at a new timer. *)
Lemma X1_witness :
  exists stopped,
    TT.stop new_timer
    = ((stopped, TT.tick (snd new_timer)),
       ok (TT.reading (snd new_timer) - 1))
    /\ TT._lastTime stopped = None
    /\ TT._cumul stopped = 0 + (TT.reading (snd new_timer) - 1)
    /\ TT.stop (stopped, TT.tick (snd new_timer))
       = ((stopped, TT.tick (TT.tick (snd new_timer))), raise RuntimeError).
Proof.
  apply (X1_stop_after_stop_raises (fst new_timer) (snd new_timer) 1).
  reflexivity.
Defined.

(** X2.  On a timer that is stopped, [start()] and then [stop()] add the
    time between their two clock readings to [_cumul], count one start,
    and leave the timer stopped. *)
Theorem X2_start_stop_adds_interval (self : TT.t) (w : TT.world) :
  TT._lastTime self = None ->
  exists started stopped,
    TT.start (self, w) = ((started, TT.tick w), ok tt)
    /\ TT.stop (started, TT.tick w)
       = ((stopped, TT.tick (TT.tick w)),
          ok (TT.reading (TT.tick w) - TT.reading w))
    /\ TT._cumul stopped
       = TT._cumul self + (TT.reading (TT.tick w) - TT.reading w)
    /\ TT._start_count stopped = (TT._start_count self + 1)%Z
    /\ TT._lastTime stopped = None.
Proof.
  intros Hl. eexists. eexists. rewrite start_eq, Hl.
  split; [reflexivity|]. rewrite stop_eq. cbn [TT._lastTime].
  repeat split.
Qed.

(** X2 at a new timer that was stopped. *)
Lemma X2_witness :
  exists started stopped,
    TT.start (fst (TT.stop new_timer))
    = ((started, TT.tick (snd (fst (TT.stop new_timer)))), ok tt)
    /\ TT.stop (started, TT.tick (snd (fst (TT.stop new_timer))))
       = ((stopped, TT.tick (TT.tick (snd (fst (TT.stop new_timer))))),
          ok (TT.reading (TT.tick (snd (fst (TT.stop new_timer))))
              - TT.reading (snd (fst (TT.stop new_timer)))))
    /\ TT._cumul stopped
       = TT._cumul (fst (fst (TT.stop new_timer)))
         + (TT.reading (TT.tick (snd (fst (TT.stop new_timer))))
            - TT.reading (snd (fst (TT.stop new_timer))))
    /\ TT._start_count stopped = (0 + 1)%Z
    /\ TT._lastTime stopped = None.
Proof.
  apply (X2_start_stop_adds_interval
           (fst (fst (TT.stop new_timer))) (snd (fst (TT.stop new_timer)))).
  reflexivity.
Defined.

(** X3.  [start()] on a timer that runs, with [_lastTime] set and not
    zero, stops it first: the time since [_lastTime] goes into [_cumul],
    and the clock is read a second time for the new [_lastTime].  A new
    timer runs from its construction, so its first [start()] counts the
    time since the timer was made. *)
Theorem X3_start_stops_running_timer (self : TT.t) (w : TT.world) (last : Q) :
  TT._lastTime self = Some last ->
  ~ last == 0 ->
  (exists started,
      TT.start (self, w) = ((started, TT.tick (TT.tick w)), ok tt)
      /\ TT._cumul started = TT._cumul self + (TT.reading w - last)
      /\ TT._lastTime started = Some (TT.reading (TT.tick w))
      /\ TT._start_count started = (TT._start_count self + 1)%Z)
  /\ (forall ostream logger w0,
        TT._lastTime (fst (TT.__init__ ostream logger w0))
        = Some (TT.reading w0)).
Proof.
  intros Hl Hz. split; [|reflexivity].
  eexists. rewrite start_eq, Hl.
  destruct (Qeq_bool last 0) eqn:E.
  - apply Qeq_bool_eq in E. contradiction.
  - repeat split.
Qed.

(** X3 at the first [start()] of a new timer: made at 1, started at 2. *)
Lemma X3_witness :
  exists started,
    TT.start new_timer
    = ((started, TT.tick (TT.tick (snd new_timer))), ok tt)
    /\ TT._cumul started = 0 + (TT.reading (snd new_timer) - 1)
    /\ TT._lastTime started = Some (TT.reading (TT.tick (snd new_timer)))
    /\ TT._start_count started = (0 + 1)%Z.
Proof.
  apply (proj1 (X3_start_stops_running_timer
                  (fst new_timer) (snd new_timer) 1 eq_refl Q_apart_0_1)).
Defined.

Lemma nonempty_cumul_line (ans : Q) (count : Z) (msg : string) :
  TT.nonempty (TT.cumul_line ans count msg) = TT.nonempty msg.
Proof. unfold TT.cumul_line. now destruct (TT.nonempty msg) eqn:E. Qed.

Lemma nonempty_delta_line (ans : Q) (msg : string) :
  TT.nonempty (TT.delta_line ans msg) = TT.nonempty msg.
Proof. unfold TT.delta_line. now destruct (TT.nonempty msg) eqn:E. Qed.

Lemma nonempty_load_line (ans : Q) (msg : string) :
  TT.nonempty (TT.load_line ans msg) = TT.nonempty msg.
Proof. unfold TT.load_line. now destruct (TT.nonempty msg) eqn:E. Qed.

(** [toc] always returns.  It reads the clock once or twice, writes the
    one line it makes of the message, and assigns to [_lastTime] at
    most. *)
Lemma toc_general (msg : option string) (delta : bool)
    (ostream : option TT.stream) (logger : option nat) (self : TT.t)
    (w : TT.world) :
  exists n line ans,
    TT.toc msg delta ostream logger (self, w) =
      ((if moves_reference delta self
        then with_lastTime self (Some (TT.reading w)) else self,
        later_world w n (deliveries self line ostream logger)),
       ok ans)
    /\ (1 <= n <= 2)%nat
    /\ TT.nonempty line = TT.nonempty (toc_msg msg w).
Proof.
  unfold moves_reference.
  destruct (Z.eqb_spec (TT._start_count self) 0) as [Hc|Hc].
  - destruct (TT._lastTime self) as [last|] eqn:Hl.
    + destruct delta.
      * rewrite (toc_delta msg ostream logger self w last Hc Hl).
        eexists 1%nat, _, _. split; [reflexivity|]. split; [lia|].
        apply nonempty_delta_line.
      * rewrite (toc_since_load msg ostream logger self w last Hc Hl).
        eexists 1%nat, _, _. split; [reflexivity|]. split; [lia|].
        apply nonempty_load_line.
    + rewrite (toc_stopped msg delta ostream logger self w);
        [|now right | now rewrite Hl].
      rewrite andb_false_r.
      eexists 1%nat, _, _. split; [reflexivity|]. split; [lia|].
      apply nonempty_cumul_line.
  - rewrite andb_false_r. cbn [andb].
    destruct (TT.truthy (TT._lastTime self)) eqn:Ht.
    + destruct (TT._lastTime self) as [last|] eqn:Hl; [|discriminate].
      cbn in Ht. apply negb_true_iff in Ht.
      rewrite (toc_running msg delta ostream logger self w last Hc Hl Ht).
      eexists 2%nat, _, _. split; [reflexivity|]. split; [lia|].
      apply nonempty_cumul_line.
    + rewrite (toc_stopped msg delta ostream logger self w);
        [|now left | exact Ht].
      eexists 1%nat, _, _. split; [reflexivity|]. split; [lia|].
      apply nonempty_cumul_line.
Qed.




(** X5.  [toc] never raises, whatever the state of the timer.  It
    assigns to no field but [_lastTime], and to that one only when the
    delta is asked for, no [start()] has been called and the timer is
    not stopped; and it writes nothing when the message is empty. *)
Theorem X5_toc_assigns_lastTime_at_most (msg : option string) (delta : bool)
    (ostream : option TT.stream) (logger : option nat) (self : TT.t)
    (w : TT.world) :
  let r := TT.toc msg delta ostream logger (self, w) in
  (exists ans, snd r = ok ans)
  /\ fst (fst r)
     = (if moves_reference delta self
        then with_lastTime self (Some (TT.reading w)) else self)
  /\ TT.clock (snd (fst r)) = TT.clock w
  /\ (toc_msg msg w = "" -> TT.written (snd (fst r)) = TT.written w).
Proof.
  destruct (toc_general msg delta ostream logger self w)
    as (n & line & ans & -> & _ & Hline).
  cbn [fst snd]. split; [now exists ans|]. split; [reflexivity|].
  split; [reflexivity|].
  intros Hm. rewrite Hm in Hline. unfold later_world, deliveries.
  cbn [TT.written]. cbn in Hline. rewrite Hline. apply app_nil_r.
Qed.

(** X5 at [toc("")] on a new timer. *)
Lemma X5_witness :
  TT.written (snd (fst (TT.toc (Some "") true None None new_timer))) = [].
Proof.
  apply (X5_toc_assigns_lastTime_at_most (Some "") true None None
           (fst new_timer) (snd new_timer)).
  reflexivity.
Defined.

(** X6.  A timer made with a logger and no stream writes the line of a
    [toc] to [sys.stdout] as well as to its logger, unless the call
    itself is given a logger: then the line goes to that logger only. *)
Theorem X6_logger_only_timer_writes_stdout (msg : option string)
    (delta : bool) (self : TT.t) (w : TT.world) (own given : nat) :
  TT._ostream self = None ->
  TT._logger self = Some own ->
  toc_msg msg w <> "" ->
  (exists line,
      TT.written (snd (fst (TT.toc msg delta None None (self, w))))
      = (TT.written w ++ [TT.Write TT.stdout line; TT.Info own line])%list)
  /\ (exists line,
        TT.written (snd (fst (TT.toc msg delta None (Some given) (self, w))))
        = (TT.written w ++ [TT.Info given line])%list).
Proof.
  intros Ho Hl Hm.
  assert (Hne : TT.nonempty (toc_msg msg w) = true).
  { destruct (toc_msg msg w); [congruence | reflexivity]. }
  split.
  - destruct (toc_general msg delta None None self w)
      as (n & line & ans & -> & _ & Hline).
    exists line. cbn [fst snd later_world TT.written]. unfold deliveries.
    now rewrite Hline, Hne, Ho, Hl.
  - destruct (toc_general msg delta None (Some given) self w)
      as (n & line & ans & -> & _ & Hline).
    exists line. cbn [fst snd later_world TT.written]. unfold deliveries.
    now rewrite Hline, Hne, Ho.
Qed.

(** X6 at a timer made with logger 7: [toc("done")], and
    [toc("done", logger=9)]. *)
Lemma X6_witness :
  (exists line,
      TT.written (snd (fst (TT.toc (Some "done") true None None
                              (fst logging_timer, snd logging_timer))))
      = (TT.written (snd logging_timer)
         ++ [TT.Write TT.stdout line; TT.Info 7 line])%list)
  /\ (exists line,
        TT.written (snd (fst (TT.toc (Some "done") true None (Some 9%nat)
                                (fst logging_timer, snd logging_timer))))
        = (TT.written (snd logging_timer) ++ [TT.Info 9 line])%list).
Proof.
  apply (X6_logger_only_timer_writes_stdout (Some "done") true
           (fst logging_timer) (snd logging_timer) 7 9).
  - reflexivity.
  - reflexivity.
  - discriminate.
Defined.

Lemma tic_eq (msg : option string) (ostream : option TT.stream)
    (logger : option nat) (self : TT.t) (w : TT.world) :
  exists n outs,
    TT.tic msg ostream logger (self, w)
    = ((with_lastTime self (Some (TT.reading w)), later_world w n outs),
       ok tt)
    /\ (1 <= n <= 3)%nat.
Proof.
  unfold TT.tic. unfold TT.seq at 1 2.
  cbn [TT._time_source TT.set_lastTime ok].
  fold (with_lastTime self (Some (TT.reading w))).
  set (self1 := with_lastTime self (Some (TT.reading w))).
  destruct (TT.nonempty _).
  - unfold TT.seq.
    destruct (toc_general
                (Some match msg with
                      | Some m => m
                      | None => "Resetting the tic/toc delta timer"
                      end) false ostream logger self1 (TT.tick w))
      as (n & line & ans & -> & Hn & _).
    cbn [moves_reference andb TT.ret ok].
    exists (S n), (deliveries self1 line ostream logger).
    split; [|lia]. unfold later_world, TT.ret. cbn.
    now rewrite Nat.add_succ_r.
  - exists 1%nat, []. split; [|lia].
    unfold later_world, TT.ret. cbn. now rewrite app_nil_r.
Qed.

(** X7.  [tic] never raises and makes its clock reading the reference
    time, whatever the message and the state of the timer, assigning to
    nothing else; before any [start()], the [toc()] after it returns the
    time since that reading. *)
Theorem X7_tic_sets_the_reference (msg : option string)
    (ostream : option TT.stream) (logger : option nat) (self : TT.t)
    (w : TT.world) :
  exists w',
    TT.tic msg ostream logger (self, w)
    = ((with_lastTime self (Some (TT.reading w)), w'), ok tt)
    /\ TT.clock w' = TT.clock w
    /\ (TT.reads w < TT.reads w')%nat
    /\ (TT._start_count self = 0%Z ->
        forall msg' ostream' logger',
          snd (TT.toc msg' true ostream' logger'
                 (with_lastTime self (Some (TT.reading w)), w'))
          = ok (TT.reading w' - TT.reading w)).
Proof.
  destruct (tic_eq msg ostream logger self w) as (n & outs & -> & Hn).
  eexists. split; [reflexivity|]. split; [reflexivity|].
  split; [cbn; lia|].
  intros Hc msg' ostream' logger'.
  now rewrite (toc_delta msg' ostream' logger'
                 (with_lastTime self (Some (TT.reading w))) _
                 (TT.reading w) Hc eq_refl).
Qed.

(** X7 at a new timer: [tic()], then [toc()]. *)
Lemma X7_witness :
  exists w',
    TT.tic None None None (fst new_timer, snd new_timer)
    = ((with_lastTime (fst new_timer) (Some (TT.reading (snd new_timer))),
        w'), ok tt)
    /\ snd (TT.toc None true None None
              (with_lastTime (fst new_timer)
                 (Some (TT.reading (snd new_timer))), w'))
       = ok (TT.reading w' - TT.reading (snd new_timer)).
Proof.
  destruct (X7_tic_sets_the_reference None None None
              (fst new_timer) (snd new_timer))
    as (w' & Ht & _ & _ & Hd).
  exists w'. split; [exact Ht|]. apply Hd. reflexivity.
Defined.


(** *** Runs *)

Lemma tick_later (w : TT.world) : TT.tick w = later_world w 1 [].
Proof. unfold TT.tick, later_world. cbn. now rewrite app_nil_r. Qed.

Lemma tick_tick_later (w : TT.world) :
  TT.tick (TT.tick w) = later_world w 2 [].
Proof. unfold TT.tick, later_world. cbn. now rewrite app_nil_r. Qed.

(** Closes one conjunct of the shape of a step. *)
Ltac shape_conjunct :=
  first
    [ reflexivity
    | lia
    | now left
    | now (right; left)
    | right; right; eexists; split; [|reflexivity]; cbn; lia
    | right; eexists; split; [eassumption | reflexivity]
    | right; eexists; split; reflexivity
    | cbn; lia
    | cbn; rewrite Z.add_0_r; reflexivity ].

(** What one call can do to the timer. *)
Lemma tictoc_step_shape (c : tictoc_call) (self : TT.t) (w : TT.world) :
  exists self' n outs,
    fst (tictoc_step c (self, w)) = (self', later_world w n outs)
    /\ (1 <= n)%nat
    /\ TT._loadTime self' = TT._loadTime self
    /\ TT._ostream self' = TT._ostream self
    /\ TT._logger self' = TT._logger self
    /\ TT._start_count self'
       = (TT._start_count self
          + match c with TStart => 1 | _ => 0 end)%Z
    /\ (TT._lastTime self' = TT._lastTime self
        \/ TT._lastTime self' = None
        \/ exists i, (TT.reads w <= i < n + TT.reads w)%nat
                     /\ TT._lastTime self' = Some (TT.clock w i))
    /\ (TT._cumul self' = TT._cumul self
        \/ exists last, TT._lastTime self = Some last
                        /\ TT._cumul self'
                           = TT._cumul self + (TT.reading w - last)).
Proof.
  destruct c as [msg ostream logger|msg delta ostream logger| |];
    cbn [tictoc_step fst].
  - destruct (tic_eq msg ostream logger self w) as (n & outs & -> & Hn).
    exists (with_lastTime self (Some (TT.reading w))), n, outs.
    cbn [fst]. repeat apply conj; shape_conjunct.
  - destruct (toc_general msg delta ostream logger self w)
      as (n & line & ans & -> & Hn & _).
    eexists _, n, _. cbn [fst]. split; [reflexivity|].
    destruct (moves_reference delta self);
      repeat apply conj; shape_conjunct.
  - rewrite stop_eq. destruct (TT._lastTime self) as [last|] eqn:Hl.
    + eexists _, 1%nat, []. cbn [fst]. rewrite tick_later.
      split; [reflexivity|]. repeat apply conj; shape_conjunct.
    + exists self, 1%nat, []. cbn [fst]. rewrite tick_later.
      repeat apply conj; shape_conjunct.
  - rewrite start_eq. destruct (TT._lastTime self) as [last|] eqn:Hl.
    + destruct (Qeq_bool last 0).
      * eexists _, 1%nat, []. cbn [fst]. rewrite tick_later.
        split; [reflexivity|]. repeat apply conj; shape_conjunct.
      * eexists _, 2%nat, []. cbn [fst]. rewrite tick_tick_later.
        split; [reflexivity|]. repeat apply conj; shape_conjunct.
    + eexists _, 1%nat, []. cbn [fst]. rewrite tick_later.
      split; [reflexivity|]. repeat apply conj; shape_conjunct.
Qed.

(** X8.  Over any run of [tic], [toc], [stop] and [start] calls,
    whether or not some of them raise, [_start_count] goes up by the
    number of [start()] calls, and [_loadTime] and the timer's stream
    and logger stay as they are. *)
Theorem X8_start_count_counts_starts (calls : list tictoc_call) :
  forall s : TT.t * TT.world,
    TT._start_count (fst (tictoc_run calls s))
    = (TT._start_count (fst s) + starts calls)%Z
    /\ TT._loadTime (fst (tictoc_run calls s)) = TT._loadTime (fst s)
    /\ TT._ostream (fst (tictoc_run calls s)) = TT._ostream (fst s)
    /\ TT._logger (fst (tictoc_run calls s)) = TT._logger (fst s)
    /\ TT.clock (snd (tictoc_run calls s)) = TT.clock (snd s).
Proof.
  induction calls as [|c calls IH]; intros [self w].
  - cbn. rewrite Z.add_0_r. auto.
  - cbn [tictoc_run].
    destruct (tictoc_step_shape c self w)
      as (self' & n & outs & -> & _ & Hload & Ho & Hl & Hc & _).
    destruct (IH (self', later_world w n outs))
      as (IHc & IHload & IHo & IHl & IHclock).
    cbn [fst snd] in *. rewrite IHc, IHload, IHo, IHl, IHclock.
    rewrite Hc, Hload, Ho, Hl. repeat split; auto.
    destruct c; cbn [starts]; lia.
Qed.

Lemma reference_read_step (c : tictoc_call) (s : TT.t * TT.world) :
  reference_read s -> reference_read (fst (tictoc_step c s)).
Proof.
  destruct s as [self w]. intros Hr.
  destruct (tictoc_step_shape c self w)
    as (self' & n & outs & -> & Hn & _ & _ & _ & _ & Hlast & _).
  unfold reference_read in *.
  cbn [fst snd later_world TT.reads TT.clock] in *. intros last Hl.
  destruct Hlast as [E|[E|(i & Hi & E)]].
  - rewrite E in Hl. destruct (Hr last Hl) as (i & Hi & ->).
    exists i. split; [lia | reflexivity].
  - congruence.
  - rewrite E in Hl. injection Hl as <-. exists i. split; [lia | reflexivity].
Qed.

Lemma cumul_step (c : tictoc_call) (s : TT.t * TT.world) :
  clock_monotone (snd s) -> reference_read s ->
  TT._cumul (fst s) <= TT._cumul (fst (fst (tictoc_step c s))).
Proof.
  destruct s as [self w]. intros Hm Hr.
  destruct (tictoc_step_shape c self w)
    as (self' & n & outs & -> & _ & _ & _ & _ & _ & _ & Hcumul).
  unfold reference_read in Hr.
  cbn [fst snd] in *. destruct Hcumul as [->|(last & Hl & ->)]; [lra|].
  destruct (Hr last Hl) as (i & Hi & ->).
  assert (TT.clock w i <= TT.reading w) by (apply Hm; lia). lra.
Qed.

Lemma tictoc_run_inv (calls : list tictoc_call) :
  forall s : TT.t * TT.world,
    clock_monotone (snd s) -> reference_read s -> 0 <= TT._cumul (fst s) ->
    clock_monotone (snd (tictoc_run calls s))
    /\ reference_read (tictoc_run calls s)
    /\ 0 <= TT._cumul (fst (tictoc_run calls s)).
Proof.
  induction calls as [|c calls IH]; intros s Hm Hr Hc; [auto|].
  cbn [tictoc_run]. apply IH.
  - destruct s as [self w].
    destruct (tictoc_step_shape c self w) as (self' & n & outs & -> & _).
    exact Hm.
  - now apply reference_read_step.
  - pose proof (cumul_step c s Hm Hr). lra.
Qed.

(** X9.  If the clock never goes back then, over any run of calls on a
    new timer, [_cumul] is never negative, no call makes it smaller, and
    a [stop()] that returns, returns a time that is not negative. *)
Theorem X9_cumul_never_decreases (ostream : option TT.stream)
    (logger : option nat) (w : TT.world) (calls : list tictoc_call)
    (c : tictoc_call) :
  clock_monotone w ->
  let s := tictoc_run calls (TT.__init__ ostream logger w) in
  0 <= TT._cumul (fst s)
  /\ TT._cumul (fst s) <= TT._cumul (fst (fst (tictoc_step c s)))
  /\ (forall s' delta, TT.stop s = (s', ok delta) -> 0 <= delta).
Proof.
  intros Hm s.
  destruct (tictoc_run_inv calls (TT.__init__ ostream logger w))
    as (Hm' & Hr & Hc).
  - exact Hm.
  - intros last [= <-]. exists (TT.reads w). cbn. split; [lia | reflexivity].
  - cbn. lra.
  - fold s in Hm', Hr, Hc. split; [exact Hc|]. split.
    + now apply cumul_step.
    + intros s' delta. destruct s as [self w1]. rewrite stop_eq.
      destruct (TT._lastTime self) as [last|] eqn:Hl; [|discriminate].
      intros [= _ <-]. unfold reference_read in Hr. cbn [fst snd] in *.
      destruct (Hr last Hl) as (i & Hi & ->).
      assert (TT.clock w1 i <= TT.reading w1) by (apply Hm'; lia). lra.
Qed.

Lemma counting_world_monotone : clock_monotone counting_world.
Proof.
  intros i j Hij. cbn. unfold Qle. cbn. lia.
Qed.

(** X9 at a new timer in a world whose clock reads 1, 2, 3, ...: after
    [start(); stop()], one more [start()]. *)
Lemma X9_witness :
  let s := tictoc_run [TStart; TStop] new_timer in
  0 <= TT._cumul (fst s)
  /\ TT._cumul (fst s) <= TT._cumul (fst (fst (tictoc_step TStart s)))
  /\ (forall s' delta, TT.stop s = (s', ok delta) -> 0 <= delta).
Proof.
  apply (X9_cumul_never_decreases None None counting_world
           [TStart; TStop] TStart).
  exact counting_world_monotone.
Defined.

(** ** The hierarchical timer in use *)

Lemma call_stack (timer : HT.ref) (m : H.t -> result H.t) (self : HT.t) :
  HT.stack (fst (HT.call timer m self)) = HT.stack self.
Proof.
  destruct timer as [path name]. unfold HT.call, HT.assign_timers.
  now destruct (modify_at path _ (HT.timers self)).
Qed.

(** [stop_increment] pops the stack, whatever comes of it. *)
Lemma stop_pops (now : Q) (name : string) (self : HT.t)
    (rest : list string) (top : string) :
  HT.stack self = (rest ++ [top])%list ->
  HT.stack (fst (HT.stop_increment now name self)) = rest.
Proof.
  intros Hs. destruct (string_dec name top) as [<-|Hne].
  - rewrite (stop_increment_match _ _ _ _ Hs). unfold HT.seq.
    rewrite get_timer_existing. cbn [HT.stack HT.timers].
    destruct (descend rest (HT.timers self)) as [dd|e]; [|reflexivity].
    destruct (dict_get name dd); [|reflexivity].
    cbn [ok]. now rewrite call_stack.
  - now rewrite (stop_increment_mismatch _ _ _ _ _ Hs Hne).
Qed.

(** The walk along a path succeeds when the tree has an accumulator at
    every step of it. *)
Lemma descend_open (path : list string) :
  forall d : dict H.t,
    (forall q, is_open q path = true -> exists h, node_at q d = Some h) ->
    exists dd, descend path d = ok dd.
Proof.
  induction path as [|i path IH]; intros d Hq; [now exists d|].
  destruct (Hq [i]) as [tmp Htmp].
  { cbn. now rewrite String.eqb_refl. }
  cbn in Htmp. destruct (dict_get i d) as [tmp'|] eqn:Hi; [|discriminate].
  injection Htmp as ->. cbn [descend]. unfold dict_item. rewrite Hi. cbn.
  apply IH. intros q Ho. destruct q as [|j q]; [discriminate|].
  destruct (Hq (i :: j :: q)) as [h Hh].
  { cbn. rewrite String.eqb_refl. exact Ho. }
  exists h. cbn [node_at] in Hh. now rewrite Hi in Hh.
Qed.

Lemma is_open_shorter (path stack : list string) (top : string) :
  is_open path stack = true -> is_open path (stack ++ [top]) = true.
Proof.
  intros Ho. rewrite is_open_snoc; [exact Ho|].
  intros ->. destruct (is_open_top stack top) as [_ E]. congruence.
Qed.

Lemma stack_inv_descend (self : HT.t) :
  stack_inv self ->
  exists dd, descend (HT.stack self) (HT.timers self) = ok dd.
Proof.
  intros Hinv. apply descend_open. intros q Ho.
  destruct (Hinv q Ho) as (h & Hh & _). now exists h.
Qed.

(** With the stack in the tree, [start] returns. *)
Lemma start_returns (now : Q) (name : string) (self : HT.t) :
  stack_inv self -> snd (HT.start_increment now name self) = ok tt.
Proof.
  intros Hinv. destruct (stack_inv_descend self Hinv) as [dd Hd].
  destruct (start_effect now name self)
    as [(e & _ & Hi)|(d' & after & -> & _)]; [|reflexivity].
  unfold invoked in Hi. pose proof (get_timer_creates name self) as Hg.
  unfold ok in Hd. rewrite Hd in Hg. cbv iota in Hg.
  destruct (dict_get name dd).
  - rewrite Hg in Hi. discriminate.
  - destruct Hg as (d' & Hg & _). rewrite Hg in Hi. discriminate.
Qed.

(** With the stack in the tree and its accumulators started, [stop] of
    the top of the stack returns. *)
Lemma stop_returns (now : Q) (name : string) (self : HT.t)
    (rest : list string) :
  stack_inv self -> HT.stack self = (rest ++ [name])%list ->
  snd (HT.stop_increment now name self) = ok tt.
Proof.
  intros Hinv Hs.
  destruct (descend_open rest (HT.timers self)) as [dd Hd].
  { intros q Ho. destruct (Hinv q) as (h & Hh & _); [|now exists h].
    rewrite Hs. now apply is_open_shorter. }
  destruct (Hinv (rest ++ [name])%list) as (h & Hh & Ht).
  { rewrite Hs. apply is_open_top. }
  rewrite (node_at_snoc _ name _ _ Hd) in Hh.
  rewrite (stop_increment_match _ _ _ _ Hs). unfold HT.seq.
  rewrite get_timer_existing. cbn [HT.stack HT.timers].
  unfold ok in Hd. rewrite Hd. cbv iota. rewrite Hh.
  destruct (H.t0 h) as [start|] eqn:Est; [|congruence].
  destruct (call_returns rest name (H.stop_increment now)
              {| HT.stack := rest; HT.timers := HT.timers self |} dd h
              {| H.total_time := H.total_time h + (now - start);
                 H.t0 := H.t0 h;
                 H.n_calls := H.n_calls h + 1;
                 H.timers := H.timers h |} Hd Hh)
    as (d' & Hc & _).
  { unfold H.stop_increment. now rewrite Est. }
  { reflexivity. }
  unfold ok at 1. cbv iota beta. now rewrite Hc.
Qed.

Lemma counters_t0 (h h' : H.t) :
  counters h' = counters h -> H.t0 h <> None -> H.t0 h' <> None.
Proof. intros Hc. destruct (counters_eq _ _ Hc) as (_ & -> & _). auto. Qed.

(** Every call keeps the stack in the tree. *)
Lemma step_stack_inv (now : Q) (c : call) (self : HT.t) :
  stack_inv self -> stack_inv (fst (step now c self)).
Proof.
  intros Hinv. destruct c as [name|name|]; cbn [step fst]; [| |exact Hinv].
  - destruct (start_effect now name self)
      as [(e & -> & _)|(d' & after & -> & _ & Hn & Hinc & Hf)];
      [exact Hinv|].
    intros q Ho. cbn [fst HT.stack HT.timers] in *.
    destruct (list_eq_dec string_dec q (HT.stack self ++ [name]))
      as [->|Hne].
    + exists after. split; [exact Hn|].
      cbn in Hinc. unfold counters in Hinc.
      destruct (node_at _ (HT.timers self)); injection Hinc as _ -> _;
        discriminate.
    + rewrite is_open_snoc in Ho by exact Hne.
      destruct (Hinv q Ho) as (h & Hh & Ht).
      destruct (frame_node _ _ _ _ _ Hf Hne Hh) as (h' & Hh' & Hc).
      exists h'. split; [exact Hh'|]. now apply (counters_t0 h).
  - destruct (list_pop (HT.stack self)) as [[rest top]|] eqn:Hp.
    2:{ now rewrite (stop_increment_empty _ _ _ (list_pop_none _ Hp)). }
    apply list_pop_some in Hp.
    pose proof (stop_pops now name self rest top Hp) as Hstack.
    intros q Ho. rewrite Hstack in Ho.
    assert (Hq : q <> (rest ++ [top])%list).
    { intros ->. destruct (is_open_top rest top) as [_ E]. congruence. }
    destruct (Hinv q) as (h & Hh & Ht).
    { rewrite Hp. now apply is_open_shorter. }
    destruct (stop_effect now name self)
      as [(e & self' & -> & Htimers)
         |(rest' & d' & after & Hs & -> & _ & _ & _ & Hf)].
    + cbn [fst]. rewrite Htimers. now exists h.
    + cbn [fst HT.timers]. rewrite Hs in Hp.
      apply app_inj_tail in Hp. destruct Hp as [-> ->].
      destruct (frame_node _ _ _ _ _ Hf Hq Hh) as (h' & Hh' & Hc).
      exists h'. split; [exact Hh'|]. now apply (counters_t0 h).
Qed.

Lemma run_stack_inv (calls : list (Q * call)) :
  forall self, stack_inv self -> stack_inv (run calls self).
Proof.
  induction calls as [|[now c] calls IH]; intros self Hinv; [exact Hinv|].
  cbn [run]. apply IH. now apply step_stack_inv.
Qed.

Lemma stack_inv_init : stack_inv HT.__init__.
Proof. intros [|i q] Ho; discriminate. Qed.

(** X10.  Whatever calls were made on a new timer, and whether or not
    some of them raised, [start] returns, and [stop] of the name on top
    of the stack returns: [_get_timer] never fails to find the
    accumulator of an open region, and [stop_increment] never finds one
    that was not started. *)
Theorem X10_start_and_matching_stop_return (calls : list (Q * call))
    (now : Q) (name : string) :
  let self := run calls HT.__init__ in
  snd (HT.start_increment now name self) = ok tt
  /\ (forall rest,
        HT.stack self = (rest ++ [name])%list ->
        snd (HT.stop_increment now name self) = ok tt).
Proof.
  intros self.
  assert (Hinv : stack_inv self) by apply run_stack_inv, stack_inv_init.
  split.
  - now apply start_returns.
  - intros rest Hs. now apply (stop_returns now name self rest).
Qed.

(** X10 after [start("a"); start("b"); stop("a")], which raised:
    [stop("a")] again returns. *)
Lemma X10_witness :
  snd (HT.stop_increment 4 "a"
         (run [(1, Start "a"); (2, Start "b"); (3, Stop "a")] HT.__init__))
  = ok tt.
Proof.
  apply (proj2 (X10_start_and_matching_stop_return
                  [(1, Start "a"); (2, Start "b"); (3, Stop "a")] 4 "a")
           []).
  reflexivity.
Defined.

(** *** Nested regions *)

Lemma run_app (calls calls' : list (Q * call)) :
  forall self, run (calls ++ calls') self = run calls' (run calls self).
Proof.
  induction calls as [|[now c] calls IH]; intros self; [reflexivity|].
  cbn [app run]. apply IH.
Qed.

Lemma error_free_app (calls calls' : list (Q * call)) :
  forall self,
    error_free (calls ++ calls') self
    = error_free calls self && error_free calls' (run calls self).
Proof.
  induction calls as [|[now c] calls IH]; intros self; [reflexivity|].
  cbn [app run error_free].
  destruct (snd (step now c self)); [reflexivity | apply IH].
Qed.

Lemma prefixb_app (stack more : list string) :
  prefixb stack (stack ++ more) = true.
Proof.
  induction stack as [|i stack IH]; [reflexivity|].
  cbn. now rewrite String.eqb_refl.
Qed.

Lemma prefixb_app_l (stack more : list string) :
  forall path,
    prefixb (stack ++ more) path = true -> prefixb stack path = true.
Proof.
  induction stack as [|i stack IH]; intros path Hp; [reflexivity|].
  destruct path as [|j path]; [discriminate|].
  cbn in *. apply andb_prop in Hp. destruct Hp as [-> Hp].
  now rewrite (IH _ Hp).
Qed.

Lemma below_top (stack : list string) (name : string) :
  below stack (stack ++ [name]) = true.
Proof.
  unfold below. rewrite prefixb_app, length_app. cbn.
  apply Nat.ltb_lt. lia.
Qed.

Lemma below_self (stack : list string) : below stack stack = false.
Proof. unfold below. now rewrite Nat.ltb_irrefl, andb_false_r. Qed.

Lemma below_deeper (stack path : list string) (name : string) :
  below stack path = false -> below (stack ++ [name]) path = false.
Proof.
  unfold below. intros Hb.
  destruct (prefixb (stack ++ [name]) path) eqn:Hp; [|reflexivity].
  rewrite (prefixb_app_l _ _ _ Hp) in Hb. cbn in *.
  apply Nat.ltb_ge in Hb. apply Nat.ltb_ge. rewrite length_app. cbn. lia.
Qed.

Lemma not_below_ne (stack path : list string) (name : string) :
  below stack path = false -> path <> (stack ++ [name])%list.
Proof. intros Hb ->. now rewrite below_top in Hb. Qed.

(** [start] on a timer whose stack is in the tree. *)
Lemma start_ok_effect (now : Q) (name : string) (self : HT.t) :
  stack_inv self ->
  exists d' after,
    HT.start_increment now name self
    = ({| HT.stack := HT.stack self ++ [name]; HT.timers := d' |}, ok tt)
    /\ node_at (HT.stack self ++ [name]) d' = Some after
    /\ incremented now StartIncrement
         (node_at (HT.stack self ++ [name]) (HT.timers self)) after
    /\ frame (HT.stack self ++ [name]) (HT.timers self) d'.
Proof.
  intros Hinv. pose proof (start_returns now name self Hinv) as Hok.
  destruct (start_effect now name self)
    as [(e & He & _)|(d' & after & He & _ & Hn & Hinc & Hf)].
  - rewrite He in Hok. discriminate.
  - now exists d', after.
Qed.

(** [stop] of the top of a stack that is in the tree. *)
Lemma stop_ok_effect (now : Q) (name : string) (self : HT.t)
    (rest : list string) :
  stack_inv self -> HT.stack self = (rest ++ [name])%list ->
  exists d' after,
    HT.stop_increment now name self
    = ({| HT.stack := rest; HT.timers := d' |}, ok tt)
    /\ node_at (rest ++ [name]) d' = Some after
    /\ incremented now StopIncrement
         (node_at (rest ++ [name]) (HT.timers self)) after
    /\ frame (rest ++ [name]) (HT.timers self) d'.
Proof.
  intros Hinv Hs. pose proof (stop_returns now name self rest Hinv Hs) as Hok.
  destruct (stop_effect now name self)
    as [(e & self' & He & _)|(rest' & d' & after & Hs' & He & _ & Hn & Hinc & Hf)].
  - rewrite He in Hok. discriminate.
  - rewrite Hs in Hs'. apply app_inj_tail in Hs'. destruct Hs' as [<- _].
    now exists d', after.
Qed.

(** Nested regions, run on a timer whose stack is in the tree: no call
    raises, the stack comes back, and only accumulators below the stack
    are touched. *)
Lemma nested_run (calls : list (Q * call)) :
  nested calls ->
  forall self,
    stack_inv self ->
    error_free calls self = true
    /\ HT.stack (run calls self) = HT.stack self
    /\ forall q,
         below (HT.stack self) q = false ->
         option_map counters (node_at q (HT.timers (run calls self)))
         = option_map counters (node_at q (HT.timers self)).
Proof.
  induction 1 as [|opened name inner closed rest _ IHinner _ IHrest];
    intros self Hinv; [now cbn|].
  destruct (start_ok_effect opened name self Hinv)
    as (d1 & after1 & Hstart & _ & _ & Hf1).
  set (s1 := {| HT.stack := HT.stack self ++ [name]; HT.timers := d1 |}).
  assert (Hinv1 : stack_inv s1).
  { pose proof (step_stack_inv opened (Start name) self Hinv) as Hi.
    cbn [step fst] in Hi. now rewrite Hstart in Hi. }
  destruct (IHinner s1 Hinv1) as (Hfree1 & Hstack1 & Hframe1).
  set (s2 := run inner s1) in *.
  assert (Hinv2 : stack_inv s2) by now apply run_stack_inv.
  destruct (stop_ok_effect closed name s2 (HT.stack self) Hinv2 Hstack1)
    as (d3 & after3 & Hstop & _ & _ & Hf3).
  set (s3 := {| HT.stack := HT.stack self; HT.timers := d3 |}).
  assert (Hinv3 : stack_inv s3).
  { pose proof (step_stack_inv closed (Stop name) s2 Hinv2) as Hi.
    cbn [step fst] in Hi. now rewrite Hstop in Hi. }
  destruct (IHrest s3 Hinv3) as (Hfree3 & Hstack3 & Hframe3).
  assert (Hrun : run ((opened, Start name) :: inner
                      ++ (closed, Stop name) :: rest) self = run rest s3).
  { cbn [run step fst]. rewrite Hstart. cbn [fst]. fold s1.
    rewrite run_app. fold s2. cbn [run step fst]. now rewrite Hstop. }
  rewrite Hrun. split; [|split].
  - cbn [error_free step fst snd]. rewrite Hstart. cbn [fst snd raised ok].
    fold s1. rewrite error_free_app, Hfree1. fold s2.
    cbn [andb error_free step fst snd]. rewrite Hstop.
    cbn [fst snd raised ok]. exact Hfree3.
  - exact Hstack3.
  - intros q Hq. rewrite (Hframe3 q Hq). cbn [HT.timers s3].
    rewrite (Hf3 q (not_below_ne _ _ name Hq)).
    rewrite (Hframe1 q (below_deeper _ _ name Hq)). cbn [HT.timers s1].
    apply (Hf1 q (not_below_ne _ _ name Hq)).
Qed.

(** X11.  A region that is started, has nested regions opened and
    closed inside it, and is stopped: no call raises, the stack is as
    before, the accumulator of the region has one call more and the time
    between its [start] and its [stop] more, and every accumulator that
    is neither the region's nor below it, its siblings and the regions
    around it among them, has the counters it had.  This holds on any
    timer that calls on a new timer have left. *)
Theorem X11_nested_cycle_counts_once (pre inner : list (Q * call))
    (opened closed : Q) (name : string) :
  nested inner ->
  let self := run pre HT.__init__ in
  let target := (HT.stack self ++ [name])%list in
  let cycle := (opened, Start name) :: inner ++ [(closed, Stop name)] in
  error_free cycle self = true
  /\ HT.stack (run cycle self) = HT.stack self
  /\ option_map counters (node_at target (HT.timers (run cycle self)))
     = Some match node_at target (HT.timers self) with
            | Some h =>
                (H.total_time h + (closed - opened), Some opened,
                 (H.n_calls h + 1)%Z)
            | None => (0 + (closed - opened), Some opened, (0 + 1)%Z)
            end
  /\ (forall q,
        q <> target -> below target q = false ->
        option_map counters (node_at q (HT.timers (run cycle self)))
        = option_map counters (node_at q (HT.timers self))).
Proof.
  intros Hnested self target cycle.
  assert (Hinv : stack_inv self) by apply run_stack_inv, stack_inv_init.
  assert (Hcycle : nested cycle).
  { apply (nested_region opened name inner closed []);
      [exact Hnested | constructor]. }
  destruct (nested_run cycle Hcycle self Hinv) as (Hfree & Hstack & _).
  split; [exact Hfree|]. split; [exact Hstack|].
  destruct (start_ok_effect opened name self Hinv)
    as (d1 & after1 & Hstart & Hn1 & Hinc1 & Hf1).
  set (s1 := {| HT.stack := HT.stack self ++ [name]; HT.timers := d1 |}).
  assert (Hinv1 : stack_inv s1).
  { pose proof (step_stack_inv opened (Start name) self Hinv) as Hi.
    cbn [step fst] in Hi. now rewrite Hstart in Hi. }
  destruct (nested_run inner Hnested s1 Hinv1) as (_ & Hstack1 & Hframe1).
  set (s2 := run inner s1) in *.
  assert (Hinv2 : stack_inv s2) by now apply run_stack_inv.
  destruct (stop_ok_effect closed name s2 (HT.stack self) Hinv2 Hstack1)
    as (d3 & after3 & Hstop & Hn3 & Hinc3 & Hf3).
  assert (Hrun : run cycle self
                 = {| HT.stack := HT.stack self; HT.timers := d3 |}).
  { unfold cycle. cbn [run step fst]. rewrite Hstart. cbn [fst]. fold s1.
    rewrite run_app. fold s2. cbn [run step fst]. now rewrite Hstop. }
  rewrite Hrun. cbn [HT.timers].
  cbn [HT.stack HT.timers s1] in Hframe1.
  fold target in Hn1, Hinc1, Hn3, Hinc3, Hf1, Hf3, Hframe1.
  split.
  - rewrite Hn3. cbn [option_map]. f_equal.
    destruct Hinc3 as (h2 & start & Hh2 & Ht2 & ->).
    specialize (Hframe1 target (below_self target)). fold s2 in Hframe1.
    rewrite Hh2, Hn1 in Hframe1. cbn [option_map] in Hframe1.
    assert (Hc : counters h2 = counters after1) by congruence.
    cbn in Hinc1. rewrite Hinc1 in Hc. unfold counters in Hc.
    destruct (node_at target (HT.timers self)) as [h|];
      injection Hc as -> E ->; rewrite Ht2 in E; injection E as ->;
      reflexivity.
  - intros q Hne Hbelow.
    rewrite (Hf3 q Hne), (Hframe1 q Hbelow). apply (Hf1 q Hne).
Qed.

Lemma two_setups_nested : nested two_setups.
Proof.
  apply (nested_region 2 "setup" [] 3
           [(4, Start "setup"); (5, Stop "setup")]); [constructor|].
  apply (nested_region 4 "setup" [] 5 []); constructor.
Qed.

(** X11 at [start("solve")], two rounds of [setup], [stop("solve")],
    on a timer that has timed [load] before: [solve] has one call and
    5 seconds, and [load], its sibling, has the counters it had. *)
Lemma X11_witness :
  let self := run [(1 # 4, Start "load"); (1 # 2, Stop "load")]
                  HT.__init__ in
  let cycle := (1, Start "solve") :: two_setups ++ [(6, Stop "solve")] in
  error_free cycle self = true
  /\ option_map counters (node_at ["solve"] (HT.timers (run cycle self)))
     = Some (0 + (6 - 1), Some 1, (0 + 1)%Z)
  /\ option_map counters (node_at ["load"] (HT.timers (run cycle self)))
     = option_map counters (node_at ["load"] (HT.timers self)).
Proof.
  intros self cycle.
  destruct (X11_nested_cycle_counts_once
              [(1 # 4, Start "load"); (1 # 2, Stop "load")]
              two_setups 1 6 "solve" two_setups_nested)
    as (Hfree & _ & Hc & Hframe).
  split; [exact Hfree|]. split; [exact Hc|].
  apply (Hframe ["load"]); [discriminate | reflexivity].
Defined.

(** *** A call as one assignment in the tree *)

Lemma dict_set_set {V : Type} (k : string) (v v' : V) (d : dict V) :
  dict_set k v' (dict_set k v d) = dict_set k v' d.
Proof.
  induction d as [|[k' w] d IH]; cbn.
  - now rewrite String.eqb_refl.
  - destruct (String.eqb k k') eqn:E; cbn; rewrite E; [reflexivity|].
    now rewrite IH.
Qed.

Lemma modify_at_ext (f g : dict H.t -> result (dict H.t))
    (path : list string) :
  forall d,
    (forall dd, descend path d = ok dd -> f dd = g dd) ->
    modify_at path f d = modify_at path g d.
Proof.
  induction path as [|i path IH]; intros d Hfg.
  - now apply Hfg.
  - cbn [modify_at]. unfold dict_item.
    destruct (dict_get i d) as [tmp|] eqn:Hi; [|reflexivity].
    cbn [bind ok]. rewrite (IH (H.timers tmp)); [reflexivity|].
    intros dd Hd. apply Hfg. cbn. unfold dict_item. now rewrite Hi.
Qed.

Lemma modify_at_compose (f g : dict H.t -> result (dict H.t))
    (path : list string) :
  forall d d1,
    modify_at path f d = ok d1 ->
    modify_at path g d1 = modify_at path (fun dd => bind (f dd) g) d.
Proof.
  induction path as [|i path IH]; intros d d1 Hf.
  - cbn in *. now rewrite Hf.
  - cbn [modify_at] in *. unfold dict_item in *.
    destruct (dict_get i d) as [tmp|] eqn:Hi; [|discriminate].
    cbn [bind ok] in *.
    destruct (modify_at path f (H.timers tmp)) as [sub|] eqn:Hs;
      [|discriminate].
    injection Hf as <-. rewrite dict_get_set_same. cbn [bind ok H.timers].
    rewrite (IH _ _ Hs).
    destruct (modify_at path (fun dd => bind (f dd) g) (H.timers tmp))
      as [sub2|]; [|reflexivity].
    cbn. now rewrite dict_set_set.
Qed.

(** A method called through a reference, as one assignment to the key
    the reference names. *)
Lemma call_update (path : list string) (name : string)
    (m : H.t -> result H.t) (self : HT.t) (dd : dict H.t) (h h' : H.t) :
  descend path (HT.timers self) = ok dd ->
  dict_get name dd = Some h ->
  m h = ok h' ->
  HT.call (path, name) m self =
    HT.assign_timers
      (modify_at path (fun d => ok (dict_set name h' d))) self.
Proof.
  intros Hd Hk Hm. unfold HT.call, HT.assign_timers.
  rewrite (modify_at_ext _ (fun d => ok (dict_set name h' d))); [reflexivity|].
  intros dd0 Hd0. rewrite Hd in Hd0. injection Hd0 as <-.
  unfold dict_item. rewrite Hk. cbn. now rewrite Hm.
Qed.


Lemma assigned_children (now : Q) (m : increment) (before : option H.t)
    (after : H.t) :
  assigned now m before after ->
  H.timers after = match before with Some h => H.timers h | None => [] end.
Proof.
  destruct m, before as [h|]; cbn; try contradiction.
  - now intros ->.
  - now intros ->.
  - unfold H.stop_increment. destruct (H.t0 h); [|discriminate].
    now intros [= <-].
Qed.

(** [start] that gets through the walk along the stack: one assignment
    to [tmp.timers[name]]. *)
Lemma start_update (now : Q) (name : string) (self : HT.t) (dd : dict H.t) :
  descend (HT.stack self) (HT.timers self) = ok dd ->
  exists after d',
    assigned now StartIncrement (dict_get name dd) after
    /\ assign_at (HT.stack self) name after (HT.timers self) = ok d'
    /\ HT.start_increment now name self
       = ({| HT.stack := HT.stack self ++ [name]; HT.timers := d' |}, ok tt).
Proof.
  intros Hd. unfold assign_at.
  destruct (dict_get name dd) as [h|] eqn:Hk.
  - exists (H.start_increment now h).
    destruct (modify_at_succeeds
                (fun d => ok (dict_set name (H.start_increment now h) d))
                _ _ _ _ Hd eq_refl) as [d' Hd'].
    exists d'. split; [reflexivity|]. split; [exact Hd'|].
    unfold HT.start_increment, HT.seq.
    pose proof (get_timer_creates name self) as Hg.
    unfold ok in Hd. rewrite Hd in Hg. cbv iota in Hg. rewrite Hk in Hg.
    rewrite Hg. unfold ok at 1. cbv iota beta.
    rewrite (call_update _ _ _ self dd h (H.start_increment now h) Hd Hk
               eq_refl).
    unfold HT.assign_timers. now rewrite Hd'.
  - exists (H.start_increment now H.__init__).
    set (create := fun d : dict H.t => ok (dict_set name H.__init__ d)).
    destruct (modify_at_succeeds create _ _ _ _ Hd eq_refl) as [d1 Hd1].
    destruct (modify_at_target create _ _ _ Hd1)
      as (dd0 & dd1 & H0 & H1 & H2).
    rewrite Hd in H0. injection H0 as <-. injection H1 as <-.
    set (self1 := {| HT.stack := HT.stack self; HT.timers := d1 |}).
    destruct (modify_at_succeeds
                (fun d => ok (dict_set name
                                (H.start_increment now H.__init__) d))
                _ _ _ _ Hd eq_refl) as [d' Hd'].
    exists d'. split; [reflexivity|]. split; [exact Hd'|].
    unfold HT.start_increment, HT.seq at 1. unfold HT._get_timer, dict_mem.
    unfold ok in Hd. rewrite Hd, Hk.
    unfold HT.seq at 1, HT.assign_timers at 1. fold create. rewrite Hd1.
    unfold HT.ret. fold self1. unfold HT.seq. cbn [ok].
    rewrite (call_update (HT.stack self) name _ self1
               (dict_set name H.__init__ dd) H.__init__
               (H.start_increment now H.__init__) H2
               (dict_get_set_same _ _ _) eq_refl).
    unfold HT.assign_timers. cbn [HT.timers self1].
    rewrite (modify_at_compose create _ _ _ _ Hd1).
    rewrite (modify_at_ext _
               (fun d => ok (dict_set name
                               (H.start_increment now H.__init__) d))).
    + now rewrite Hd'.
    + intros dd0 _. unfold create. cbn. now rewrite dict_set_set.
Qed.

(** [stop] of the top of the stack, on an accumulator that was started:
    one assignment to [tmp.timers[name]]. *)
Lemma stop_update (now : Q) (name : string) (self : HT.t)
    (rest : list string) (dd : dict H.t) (h after : H.t) :
  HT.stack self = (rest ++ [name])%list ->
  descend rest (HT.timers self) = ok dd ->
  dict_get name dd = Some h ->
  H.stop_increment now h = ok after ->
  exists d',
    assign_at rest name after (HT.timers self) = ok d'
    /\ HT.stop_increment now name self
       = ({| HT.stack := rest; HT.timers := d' |}, ok tt).
Proof.
  intros Hs Hd Hk Hm. unfold assign_at.
  destruct (modify_at_succeeds (fun d => ok (dict_set name after d))
              _ _ _ _ Hd eq_refl) as [d' Hd'].
  exists d'. split; [exact Hd'|].
  rewrite (stop_increment_match _ _ _ _ Hs). unfold HT.seq.
  rewrite get_timer_existing. cbn [HT.stack HT.timers].
  pose proof Hd as Hd0. unfold ok in Hd0. rewrite Hd0. cbv iota.
  rewrite Hk. unfold ok at 1. cbv iota beta.
  rewrite (call_update rest name _
             {| HT.stack := rest; HT.timers := HT.timers self |}
             dd h after Hd Hk Hm).
  unfold HT.assign_timers. cbn [HT.timers HT.stack]. now rewrite Hd'.
Qed.

Lemma node_at_snoc_inv (path : list string) (k : string) :
  forall d h,
    node_at (path ++ [k]) d = Some h ->
    exists dd, descend path d = ok dd /\ dict_get k dd = Some h.
Proof.
  induction path as [|i path IH]; intros d h Hn.
  - exists d. split; [reflexivity|]. cbn in Hn.
    now destruct (dict_get k d).
  - cbn [app node_at] in Hn.
    destruct (dict_get i d) as [tmp|] eqn:Hi; [|discriminate].
    assert (Hn' : node_at (path ++ [k]) (H.timers tmp) = Some h).
    { now destruct path. }
    destruct (IH _ _ Hn') as (dd & Hd & Hk).
    exists dd. split; [|exact Hk]. cbn. unfold dict_item. now rewrite Hi.
Qed.

Lemma start_fails (now : Q) (name : string) (self : HT.t) (e : exn) :
  descend (HT.stack self) (HT.timers self) = raise e ->
  HT.start_increment now name self = (self, raise e).
Proof.
  intros Hd. unfold HT.start_increment, HT.seq, HT._get_timer.
  unfold raise in Hd. now rewrite Hd.
Qed.

(** A call leaves the tree as it is, or returns after one assignment:
    to the key [name] of the dict that the walk along [path] reaches,
    of the accumulator that was there, incremented. *)
Lemma step_assigns (now : Q) (c : call) (self : HT.t) :
  HT.timers (fst (step now c self)) = HT.timers self
  \/ exists path name dd after m,
       descend path (HT.timers self) = ok dd
       /\ assigned now m (dict_get name dd) after
       /\ assign_at path name after (HT.timers self)
          = ok (HT.timers (fst (step now c self)))
       /\ snd (step now c self) = None
       /\ match c with
          | Start n =>
              n = name /\ path = HT.stack self /\ m = StartIncrement
          | Stop n =>
              n = name /\ HT.stack self = (path ++ [name])%list
              /\ m = StopIncrement
          | Report => False
          end.
Proof.
  destruct c as [name|name|]; cbn [step fst snd]; [| |now left].
  - destruct (descend (HT.stack self) (HT.timers self)) as [dd|e] eqn:Hd.
    + destruct (start_update now name self dd Hd)
        as (after & d' & Ha & Hd' & ->).
      right. exists (HT.stack self), name, dd, after, StartIncrement.
      cbn [fst snd HT.timers raised ok]. repeat split; auto.
    + left. now rewrite (start_fails now name self e Hd).
  - destruct (stop_effect now name self)
      as [(e & self' & -> & Htimers)
         |(rest & d' & after & Hs & He & _ & _ & Hinc & _)];
      [now left|].
    destruct Hinc as (h & start & Hh & Ht & _).
    destruct (node_at_snoc_inv _ _ _ _ Hh) as (dd & Hd & Hk).
    assert (Hm : H.stop_increment now h
                 = ok {| H.total_time := H.total_time h + (now - start);
                         H.t0 := H.t0 h;
                         H.n_calls := H.n_calls h + 1;
                         H.timers := H.timers h |}).
    { unfold H.stop_increment. now rewrite Ht. }
    destruct (stop_update now name self rest dd h _ Hs Hd Hk Hm)
      as (d'' & Hd'' & He').
    rewrite He'. right. exists rest, name, dd. eexists. exists StopIncrement.
    split; [exact Hd|]. rewrite Hk. cbn. split; [exact Hm|].
    split; [exact Hd''|]. auto.
Qed.

(** *** The keys of the tree *)

Lemma dict_get_notin {V : Type} (k : string) (d : dict V) :
  dict_get k d = None -> ~ In k (map fst d).
Proof.
  induction d as [|[k' v] d IH]; cbn; [tauto|].
  destruct (String.eqb_spec k k') as [->|Hne]; [discriminate|].
  intros Hd [E|Hin]; [congruence | now apply IH].
Qed.

Lemma keys_dict_set {V : Type} (k : string) (v : V) (d : dict V) :
  map fst (dict_set k v d)
  = match dict_get k d with
    | Some _ => map fst d
    | None => (map fst d ++ [k])%list
    end.
Proof.
  induction d as [|[k' w] d IH]; cbn; [reflexivity|].
  destruct (String.eqb_spec k k') as [->|Hne]; cbn; [reflexivity|].
  rewrite IH. now destruct (dict_get k d).
Qed.

Lemma In_dict_set {V : Type} (k : string) (v : V) (d : dict V)
    (x : string * V) :
  In x (dict_set k v d) -> x = (k, v) \/ In x d.
Proof.
  induction d as [|[k' w] d IH]; cbn.
  - intros [<-|[]]. now left.
  - destruct (String.eqb_spec k k') as [->|Hne]; cbn.
    + intros [<-|Hin]; auto.
    + intros [<-|Hin]; auto. destruct (IH Hin); auto.
Qed.

Lemma NoDup_snoc {A : Type} (l : list A) (x : A) :
  NoDup l -> ~ In x l -> NoDup (l ++ [x]).
Proof.
  induction 1 as [|y l Hy Hl IH]; cbn; intros Hx.
  - constructor; [tauto | constructor].
  - constructor.
    + rewrite in_app_iff. cbn. intros [Hin|[E|[]]]; [tauto|].
      apply Hx. now left.
    + apply IH. tauto.
Qed.

Lemma unique_dict_set (k : string) (v : H.t) (d : dict H.t) :
  unique_keys d -> unique_keys (H.timers v) ->
  unique_keys (dict_set k v d).
Proof.
  intros Hd Hv. inversion Hd as [d0 Hnd Hsub]. subst d0. constructor.
  - rewrite keys_dict_set. destruct (dict_get k d) eqn:Hk; [exact Hnd|].
    apply NoDup_snoc; [exact Hnd | now apply dict_get_notin].
  - intros k' h Hin. destruct (In_dict_set _ _ _ _ Hin) as [E|Hin'].
    + now injection E as _ ->.
    + now apply (Hsub k').
Qed.

Lemma unique_child (k : string) (d : dict H.t) (h : H.t) :
  unique_keys d -> dict_get k d = Some h -> unique_keys (H.timers h).
Proof.
  intros Hd Hk. inversion Hd as [d0 _ Hsub]. subst d0.
  apply (Hsub k). now apply dict_get_In.
Qed.

Lemma unique_descend (path : list string) :
  forall d dd, unique_keys d -> descend path d = ok dd -> unique_keys dd.
Proof.
  induction path as [|i path IH]; intros d dd Hu Hd.
  - now injection Hd as <-.
  - cbn in Hd. unfold dict_item in Hd.
    destruct (dict_get i d) as [tmp|] eqn:Hi; [|discriminate].
    apply (IH (H.timers tmp)); [|exact Hd]. now apply (unique_child i d).
Qed.

Lemma unique_assign (name : string) (v : H.t) (path : list string) :
  forall d d',
    unique_keys d -> unique_keys (H.timers v) ->
    assign_at path name v d = ok d' -> unique_keys d'.
Proof.
  unfold assign_at.
  induction path as [|i path IH]; intros d d' Hu Hv Hm.
  - injection Hm as <-. now apply unique_dict_set.
  - cbn in Hm. unfold dict_item in Hm.
    destruct (dict_get i d) as [tmp|] eqn:Hi; [|discriminate].
    cbn in Hm. destruct (modify_at path _ (H.timers tmp)) as [sub|] eqn:Hs;
      [|discriminate].
    injection Hm as <-. apply unique_dict_set; [exact Hu|].
    cbn. apply (IH (H.timers tmp)); [|exact Hv|exact Hs].
    now apply (unique_child i d).
Qed.

Lemma unique_nil : unique_keys [].
Proof. constructor; [constructor | intros k h []]. Qed.

Lemma unique_children_at (name : string) (dd : dict H.t) :
  unique_keys dd -> unique_keys (children_at name dd).
Proof.
  intros Hu. unfold children_at. destruct (dict_get name dd) eqn:Hk.
  - now apply (unique_child name dd).
  - apply unique_nil.
Qed.

Lemma step_unique (now : Q) (c : call) (self : HT.t) :
  unique_keys (HT.timers self) ->
  unique_keys (HT.timers (fst (step now c self))).
Proof.
  intros Hu. destruct (step_assigns now c self)
    as [->|(path & name & dd & after & m & Hd & Ha & Hm & _)]; [exact Hu|].
  apply (unique_assign name after path _ _ Hu); [|exact Hm].
  rewrite (assigned_children _ _ _ _ Ha).
  apply (unique_children_at name dd). now apply (unique_descend path _ _ Hu).
Qed.

Lemma run_unique (calls : list (Q * call)) :
  forall self,
    unique_keys (HT.timers self) ->
    unique_keys (HT.timers (run calls self)).
Proof.
  induction calls as [|[now c] calls IH]; intros self Hu; [exact Hu|].
  cbn [run]. apply IH. now apply step_unique.
Qed.

Lemma assign_keys (name : string) (v : H.t) (path : list string) :
  forall d d',
    assign_at path name v d = ok d' ->
    (forall dd0, descend path d = ok dd0 ->
                 H.timers v = children_at name dd0) ->
    forall q dd,
      descend q d = ok dd ->
      exists dd',
        descend q d' = ok dd'
        /\ (map fst dd' = map fst dd
            \/ (q = path /\ dict_get name dd = None
                /\ map fst dd' = (map fst dd ++ [name])%list)).
Proof.
  unfold assign_at.
  induction path as [|i path IH]; intros d d' Hm Hv q dd Hq.
  - injection Hm as <-. destruct q as [|j q].
    + injection Hq as <-. eexists. split; [reflexivity|].
      rewrite keys_dict_set. destruct (dict_get name d); auto.
    + cbn in Hq. unfold dict_item in Hq. cbn [descend]. unfold dict_item.
      destruct (dict_get j d) as [tmp|] eqn:Hj; [|discriminate].
      cbn in Hq. exists dd. split; [|now left].
      destruct (string_dec j name) as [->|Hne].
      * rewrite dict_get_set_same. cbn. rewrite (Hv d eq_refl).
        unfold children_at. now rewrite Hj.
      * rewrite dict_get_set_other by exact Hne. now rewrite Hj.
  - cbn in Hm. unfold dict_item in Hm.
    destruct (dict_get i d) as [tmp|] eqn:Hi; [|discriminate].
    cbn in Hm. destruct (modify_at path _ (H.timers tmp)) as [sub|] eqn:Hs;
      [|discriminate].
    injection Hm as <-. destruct q as [|j q].
    + injection Hq as <-. eexists. split; [reflexivity|].
      rewrite keys_dict_set, Hi. now left.
    + cbn in Hq. unfold dict_item in Hq. cbn [descend]. unfold dict_item.
      destruct (string_dec j i) as [->|Hne].
      * rewrite Hi in Hq. cbn in Hq. rewrite dict_get_set_same. cbn.
        destruct (IH _ _ Hs) with (q := q) (dd := dd)
          as (dd' & Hd' & Hkeys); [|exact Hq|].
        { intros dd0 Hd0. apply Hv. cbn. unfold dict_item.
          now rewrite Hi. }
        exists dd'. split; [exact Hd'|].
        destruct Hkeys as [E|(-> & Hk & E)]; auto.
      * rewrite dict_get_set_other by exact Hne.
        destruct (dict_get j d) as [tmp'|]; [|discriminate].
        exists dd. split; [exact Hq | now left].
Qed.

Lemma unique_NoDup (d : dict H.t) : unique_keys d -> NoDup (map fst d).
Proof. now inversion 1. Qed.

(** X13.  On any timer that calls on a new timer have left, a call
    never removes or reorders the names of any level of the tree, and
    the names of a level stay distinct: the call leaves them as they
    are, or it is the [start] of a name that is new under the region on
    top of the stack, and that name is added after the others.  As the
    report walks each level in this order, regions are reported in the
    order of their first [start]. *)
Theorem X13_names_keep_their_order (calls : list (Q * call)) (now : Q)
    (c : call) (path : list string) (dd : dict H.t) :
  let self := run calls HT.__init__ in
  descend path (HT.timers self) = ok dd ->
  exists dd',
    descend path (HT.timers (fst (step now c self))) = ok dd'
    /\ NoDup (map fst dd')
    /\ (map fst dd' = map fst dd
        \/ exists name,
             c = Start name /\ path = HT.stack self
             /\ ~ In name (map fst dd)
             /\ map fst dd' = (map fst dd ++ [name])%list).
Proof.
  intros self Hd.
  assert (Hu : unique_keys (HT.timers self)).
  { apply run_unique, unique_nil. }
  pose proof (step_unique now c self Hu) as Hu'.
  destruct (step_assigns now c self)
    as [E|(p & name & dd0 & after & m & Hd0 & Ha & Hm & _ & Hc)].
  - rewrite E. exists dd. split; [exact Hd|]. split; [|now left].
    apply unique_NoDup. now apply (unique_descend path _ _ Hu).
  - destruct (assign_keys name after p _ _ Hm) with (q := path) (dd := dd)
      as (dd' & Hd' & Hkeys); [|exact Hd|].
    { intros dd1 Hd1. rewrite Hd0 in Hd1. injection Hd1 as <-.
      rewrite (assigned_children _ _ _ _ Ha). reflexivity. }
    exists dd'. split; [exact Hd'|]. split.
    { apply unique_NoDup. now apply (unique_descend path _ _ Hu'). }
    destruct Hkeys as [E|(-> & Hk & E)]; [now left|].
    right. exists name. rewrite Hd0 in Hd. injection Hd as ->.
    rewrite Hk in Ha. destruct c as [n|n|]; [|destruct Hc as (_ & _ & ->);
      contradiction | contradiction].
    destruct Hc as (-> & -> & _). repeat split; auto.
    now apply dict_get_notin.
Qed.

(** X13 at [start("a"); start("b"); stop("b")], then [start("c")]: the
    level below [a] goes from [b] to [b, c]. *)
Lemma X13_witness :
  exists dd',
    descend ["a"]
      (HT.timers
         (fst (step 4 (Start "c")
                 (run [(1, Start "a"); (2, Start "b"); (3, Stop "b")]
                      HT.__init__))))
    = ok dd'
    /\ map fst dd' = ["b"; "c"].
Proof.
  destruct (X13_names_keep_their_order
              [(1, Start "a"); (2, Start "b"); (3, Stop "b")]
              4 (Start "c") ["a"]
              [("b", {| H.total_time := 0 + (3 - 2); H.t0 := Some 2;
                        H.n_calls := 0 + 1; H.timers := [] |})]
              eq_refl)
    as (dd' & Hd & _ & _).
  exists dd'. split; [exact Hd|].
  cbn in Hd. now injection Hd as <-.
Defined.

(** *** The report of a finished run *)

Lemma NoDup_dict_get {V : Type} (k : string) (v : V) (d : dict V) :
  NoDup (map fst d) -> In (k, v) d -> dict_get k d = Some v.
Proof.
  induction d as [|[k' w] d IH]; cbn; [tauto|].
  intros Hnd [E|Hin].
  - injection E as -> ->. now rewrite String.eqb_refl.
  - inversion Hnd as [|x l Hx Hl]. subst.
    destruct (String.eqb_spec k k') as [->|_]; [|now apply IH].
    exfalso. apply Hx. apply (in_map fst _ _ Hin).
Qed.

(** In a tree with distinct keys, where every accumulator has completed
    a call and has taken time, every division of the report is
    defined. *)
Lemma counted_defined (self : H.t) :
  unique_keys (H.timers self) ->
  (forall q c,
      node_at q (H.timers self) = Some c ->
      (1 <= H.n_calls c)%Z /\ 0 < H.total_time c) ->
  forallb child_defined (H.timers self) = true.
Proof.
  induction self as [total start n items IH] using helper_ind.
  cbn [H.timers]. intros Hu Hgood. apply forallb_forall.
  intros [k c] Hin.
  assert (Hk : dict_get k items = Some c).
  { apply NoDup_dict_get; [now apply unique_NoDup | exact Hin]. }
  destruct (Hgood [k] c) as [Hcalls Htime].
  { cbn. now rewrite Hk. }
  unfold child_defined. cbn [snd]. apply andb_true_intro. split.
  - apply negb_true_iff, Z.eqb_neq. lia.
  - rewrite Forall_forall in IH. specialize (IH _ Hin). cbn [snd] in IH.
    assert (Hc : forallb child_defined (H.timers c) = true).
    { apply IH.
      - now apply (unique_child k items).
      - intros q c' Hq. apply (Hgood (k :: q) c'). cbn [node_at].
        rewrite Hk. destruct q; [discriminate | exact Hq]. }
    destruct c as [ctotal cstart cn citems]. cbn in *.
    destruct citems as [|item citems]; [reflexivity|].
    apply andb_true_intro. split; [|exact Hc].
    apply negb_true_iff. destruct (Qeq_bool ctotal 0) eqn:E; [|reflexivity].
    apply Qeq_bool_eq in E. lra.
Qed.

(** A call that returns, made after the clock has gone up, keeps the
    closed regions counted. *)
Lemma step_closed (last now : Q) (c : call) (self : HT.t) :
  last < now ->
  tree_inv last (HT.timers self) ->
  closed_regions_counted self ->
  snd (step now c self) = None ->
  closed_regions_counted (fst (step now c self)).
Proof.
  intros Hlt Hinv Hclosed Hok.
  destruct c as [name|name|]; cbn [step fst snd] in *; [| |exact Hclosed].
  - destruct (start_effect now name self)
      as [(e & He & _)|(d' & after & He & _ & Hn & _ & Hf)];
      rewrite He in *; [discriminate|].
    intros q h Hq Ho. cbn [fst HT.stack HT.timers] in *.
    assert (Hne : q <> (HT.stack self ++ [name])%list).
    { intros ->. destruct (is_open_top (HT.stack self) name) as [E _].
      congruence. }
    destruct (frame_node_back _ _ _ _ _ Hf Hne Hq) as (h0 & Hq0 & Hc).
    destruct (counters_eq _ _ Hc) as (-> & _ & ->).
    apply (Hclosed q h0 Hq0). now rewrite <- (is_open_snoc q _ name Hne).
  - destruct (stop_effect now name self)
      as [(e & self' & He & _)|(rest & d' & after & Hs & He & _ & Hn & Hinc & Hf)];
      rewrite He in *; [discriminate|].
    intros q h Hq Ho. cbn [fst HT.stack HT.timers] in *.
    destruct (list_eq_dec string_dec q (rest ++ [name])) as [->|Hne].
    + rewrite Hn in Hq. injection Hq as <-.
      destruct Hinc as (h0 & start & Hh0 & Ht0 & Hc).
      destruct (Hinv _ _ Hh0) as (Htime & Hcalls & Hstart).
      specialize (Hstart start Ht0).
      unfold counters in Hc. injection Hc as -> _ ->. split; [lia | lra].
    + destruct (frame_node_back _ _ _ _ _ Hf Hne Hq) as (h0 & Hq0 & Hc).
      destruct (counters_eq _ _ Hc) as (-> & _ & ->).
      apply (Hclosed q h0 Hq0). rewrite Hs. now rewrite is_open_snoc.
Qed.

Lemma run_closed (calls : list (Q * call)) :
  forall (self : HT.t) (last : Q),
    tree_inv last (HT.timers self) ->
    closed_regions_counted self ->
    readings_above last calls ->
    error_free calls self = true ->
    closed_regions_counted (run calls self).
Proof.
  induction calls as [|[now c] calls IH];
    intros self last Hinv Hclosed Hr He; [exact Hclosed|].
  cbn [readings_above] in Hr. destruct Hr as [Hlt Hr].
  cbn [error_free] in He. cbn [run].
  destruct (snd (step now c self)) eqn:Hok; [discriminate|].
  apply (IH _ now).
  - apply (step_inv last); [lra | exact Hinv].
  - now apply (step_closed last).
  - exact Hr.
  - exact He.
Qed.

(** X14.  After a run of calls on a new timer in which no call raised,
    the clock went up from each call to the next, and every region was
    closed, every accumulator of the tree has [n_calls] at 1 or more and
    a [total_time] above zero, and the report is produced. *)
Theorem X14_report_of_a_finished_run (calls : list (Q * call)) :
  error_free calls HT.__init__ = true ->
  advancing_clock calls ->
  HT.stack (run calls HT.__init__) = [] ->
  (forall path h,
      node_at path (HT.timers (run calls HT.__init__)) = Some h ->
      (1 <= H.n_calls h)%Z /\ 0 < H.total_time h)
  /\ HT.__str__ (run calls HT.__init__)
     = ok (report_layout (run calls HT.__init__)).
Proof.
  intros He Hclock Hstack.
  assert (Hclosed : closed_regions_counted (run calls HT.__init__)).
  { destruct calls as [|[now c] calls].
    { intros q h Hq. cbn in Hq. now rewrite node_at_empty in Hq. }
    cbn [advancing_clock] in Hclock.
    apply (run_closed _ _ (now - 1)).
    - apply tree_inv_init.
    - intros q h Hq. cbn in Hq. now rewrite node_at_empty in Hq.
    - cbn [readings_above]. split; [lra | exact Hclock].
    - exact He. }
  assert (Hall : forall path h,
             node_at path (HT.timers (run calls HT.__init__)) = Some h ->
             (1 <= H.n_calls h)%Z /\ 0 < H.total_time h).
  { intros q c Hq. apply (Hclosed q c Hq). rewrite Hstack. now destruct q. }
  split; [exact Hall|].
  rewrite str_result.
  replace (report_defined (run calls HT.__init__)) with true; [reflexivity|].
  symmetry. unfold report_defined.
  apply (counted_defined
           {| H.total_time := 0; H.t0 := None; H.n_calls := 0;
              H.timers := HT.timers (run calls HT.__init__) |}).
  - apply run_unique, unique_nil.
  - exact Hall.
Qed.

(** X14 at [start("solve")], two rounds of [setup], [stop("solve")],
    with the clock at 1, 2, ..., 6. *)
Lemma X14_witness :
  let final := run ((1, Start "solve") :: two_setups ++ [(6, Stop "solve")])
                   HT.__init__ in
  (forall path h,
      node_at path (HT.timers final) = Some h ->
      (1 <= H.n_calls h)%Z /\ 0 < H.total_time h)
  /\ HT.__str__ final = ok (report_layout final).
Proof.
  apply (X14_report_of_a_finished_run
           ((1, Start "solve") :: two_setups ++ [(6, Stop "solve")])).
  - reflexivity.
  - cbn. repeat split.
  - reflexivity.
Defined.

(** *** A reference time of zero *)

(** X15.  [start] tests [_lastTime] for truth, not for [None]: on a
    timer whose reference time is set but reads zero, [start()] does not
    stop the timer first, so the time since the reference is not added
    to [_cumul], and the clock is read once; [stop()] on the same timer
    does add it. *)
Theorem X15_start_drops_time_since_zero (self : TT.t) (w : TT.world)
    (last : Q) :
  TT._lastTime self = Some last ->
  last == 0 ->
  (exists started,
      TT.start (self, w) = ((started, TT.tick w), ok tt)
      /\ TT._cumul started = TT._cumul self
      /\ TT._lastTime started = Some (TT.reading w)
      /\ TT._start_count started = (TT._start_count self + 1)%Z)
  /\ (exists stopped,
        TT.stop (self, w) = ((stopped, TT.tick w), ok (TT.reading w - last))
        /\ TT._cumul stopped = TT._cumul self + (TT.reading w - last)).
Proof.
  intros Hl Hz. split.
  - eexists. rewrite start_eq, Hl, (Qeq_eq_bool _ _ Hz). repeat split.
  - eexists. rewrite stop_eq, Hl. repeat split.
Qed.

(** X15 at a timer made when the clock read 0. *)
Lemma X15_witness :
  let w := {| TT.clock := fun n => inject_Z (Z.of_nat n); TT.reads := 0;
              TT.caller := ("script.py", 12%Z, "main");
              TT.written := [] |} in
  exists started,
    TT.start (TT.__init__ None None w)
    = ((started, TT.tick (TT.tick w)), ok tt)
    /\ TT._cumul started = 0
    /\ TT._lastTime started = Some (TT.reading (TT.tick w))
    /\ TT._start_count started = (0 + 1)%Z.
Proof.
  intros w.
  apply (proj1 (X15_start_drops_time_since_zero
                  (fst (TT.__init__ None None w))
                  (snd (TT.__init__ None None w)) (TT.reading w)
                  eq_refl eq_refl)).
Defined.
